(** * cryptrol/email: a shallow embedding of [email.go]

    The package composes a MIME message ([Message], [Bytes]) and hands it
    to an SMTP relay ([Send]), with a LOGIN authenticator ([loginAuth]).

    Conventions of the embedding:
    - a Go [string] is a [string]; a Go [[]byte] is a [list byte], and a
      [[]byte] result that may be [nil] is an [option (list byte)];
    - a Go [error] is its message, and a result of type [error] is an
      [option error] with [None] for [nil];
    - a [map[string]*Attachment] is a [gmap string Attachment]; the order in
      which [range] visits it is not fixed by Go, so [Bytes] takes the visiting
      order as an argument;
    - a [[]string] in memory is a [Slice] on an array of a [Store]: slices
      on one array share its cells, and [append] writes into them; [Tolist]
      and [Send] take the message in memory, with the store;
    - the SMTP client of [net/smtp] is an oracle over the history of the
      steps performed on the connection. *)

From Stdlib Require Import ZArith Lia.
From Stdlib Require Import Strings.String Strings.Ascii Strings.Byte.
From stdpp Require Import gmap strings list fin_maps.

(* ===================================================================== *)
(** ** Bytes and strings *)
(* ===================================================================== *)

Definition error := string.

(** The two characters a string literal cannot hold directly. *)
Definition CRLF : string := String "013" (String "010" EmptyString).
Definition DQUOTE : string := String "034" EmptyString.

(** [[]byte(s)] and [string(b)]. *)
Definition bytes_of (s : string) : list byte := list_byte_of_string s.
Definition string_of (b : list byte) : string := string_of_list_byte b.

(** [bytes.Buffer]: the bytes written so far. *)
Definition Buffer := list byte.

Definition WriteString (buf : Buffer) (s : string) : Buffer := buf ++ bytes_of s.
Definition Write (buf : Buffer) (p : list byte) : Buffer := buf ++ p.
Definition WriteByte (buf : Buffer) (c : byte) : Buffer := buf ++ [c].

(* ===================================================================== *)
(** ** The functions of Go's library that [email.go] calls *)
(* ===================================================================== *)

(** [strings.Join(elems, sep)]. *)
Fixpoint strings_Join (elems : list string) (sep : string) : string :=
  match elems with
  | [] => EmptyString
  | [e] => e
  | e :: rest => e +:+ sep +:+ strings_Join rest sep
  end.

(** [strings.HasSuffix]:
    [len(s) >= len(suffix) && s[len(s)-len(suffix):] == suffix]. *)
Definition strings_HasSuffix (s suffix : string) : bool :=
  (String.length suffix <=? String.length s)%nat
  && String.eqb
       (String.substring (String.length s - String.length suffix)
          (String.length suffix) s)
       suffix.

(** [strings.TrimSuffix]: [s] without the suffix when it ends with it. *)
Definition strings_TrimSuffix (s suffix : string) : string :=
  if strings_HasSuffix s suffix
  then String.substring 0 (String.length s - String.length suffix) s
  else s.

(** ['A' <= c && c <= 'Z'] then [c += 'a' - 'A']. *)
Definition lower_byte (c : ascii) : ascii :=
  let n := N_of_ascii c in
  if ((65 <=? n) && (n <=? 90))%N then ascii_of_N (n + 32) else c.

(** [strings.ToLower]. The model is the function's ASCII branch, applied
    byte by byte; on a string with bytes above 127 Go maps runes through
    the Unicode tables instead. No rune outside ASCII lowers to a letter of
    the two words [Next] compares with (only U+0130 and U+212A lower into
    ASCII, to i and k), so the branch [Next] takes is the one of the model. *)
Fixpoint strings_ToLower (s : string) : string :=
  match s with
  | EmptyString => EmptyString
  | String c rest => String (lower_byte c) (strings_ToLower rest)
  end.

(** [os.IsPathSeparator] on Unix. *)
Definition IsPathSeparator (c : ascii) : bool := Ascii.eqb c "/".

(** The loop of [filepath.Split]:
    [i := len(path) - 1; for i >= 0 && !os.IsPathSeparator(path[i]) { i-- }].
    The argument and the result are [i + 1]. *)
Fixpoint split_index (path : list ascii) (i1 : nat) : nat :=
  match i1 with
  | O => O
  | S i =>
      match path !! i with
      | Some c => if IsPathSeparator c then S i else split_index path i
      | None => S i
      end
  end.

(** [filepath.Split] on Unix (no volume name):
    [return path[:i+1], path[i+1:]]. *)
Definition filepath_Split (path : string) : string * string :=
  let p := list_ascii_of_string path in
  let i1 := split_index p (length p) in
  (string_of_list_ascii (take i1 p), string_of_list_ascii (drop i1 p)).

(** [base64.StdEncoding]: the alphabet and the padding character. *)
Definition encodeStd : string :=
  "ABCDEFGHIJKLMNOPQRSTUVWXYZabcdefghijklmnopqrstuvwxyz0123456789+/".
Definition StdPadding : byte := "="%byte.

(** [enc.encode[v]], for [v] below 64. *)
Definition enc_encode (v : Z) : byte :=
  nth (Z.to_nat v) (bytes_of encodeStd) StdPadding.

Definition uint (b : byte) : Z := Z.of_N (Byte.to_N b).

(** [base64.StdEncoding.EncodedLen(n)]: [(n + 2) / 3 * 4]. *)
Definition base64_EncodedLen (n : nat) : nat := ((n + 2) / 3 * 4)%nat.

(** [base64.StdEncoding.Encode]: three source bytes give four characters;
    a remainder of one or two bytes gives two or three characters and
    padding up to four. The result is the filled destination. *)
Fixpoint base64_Encode (src : list byte) : list byte :=
  match src with
  | [] => []
  | [s0] =>
      let val := Z.shiftl (uint s0) 16 in
      [ enc_encode (Z.land (Z.shiftr val 18) 63);
        enc_encode (Z.land (Z.shiftr val 12) 63);
        StdPadding; StdPadding ]
  | [s0; s1] =>
      let val := Z.lor (Z.shiftl (uint s0) 16) (Z.shiftl (uint s1) 8) in
      [ enc_encode (Z.land (Z.shiftr val 18) 63);
        enc_encode (Z.land (Z.shiftr val 12) 63);
        enc_encode (Z.land (Z.shiftr val 6) 63);
        StdPadding ]
  | s0 :: s1 :: s2 :: rest =>
      let val :=
        Z.lor (Z.lor (Z.shiftl (uint s0) 16) (Z.shiftl (uint s1) 8)) (uint s2) in
      enc_encode (Z.land (Z.shiftr val 18) 63)
      :: enc_encode (Z.land (Z.shiftr val 12) 63)
      :: enc_encode (Z.land (Z.shiftr val 6) 63)
      :: enc_encode (Z.land val 63)
      :: base64_Encode rest
  end.

(* ===================================================================== *)
(** ** The message *)
(* ===================================================================== *)

Record Attachment := {
  Filename : string;
  Data : list byte;
  Inline : bool
}.

(** The struct [Message]. [strings] is what stands for the three
    [[]string] fields: a [Slice] for the message as it lies in memory, where
    the arrays behind [m.To], [m.Cc] and [m.Bcc] may be shared, and a
    [list string] for the message as its fields read. [Attachments] is
    [None] for the nil map of a [Message] that was not made by
    [newMessage]. *)
Record Message_of (strings : Type) := {
  From : string;
  To : strings;
  Cc : strings;
  Bcc : strings;
  ReplyTo : string;
  Subject : string;
  Body : string;
  BodyContentType : string;
  Attachments : option (gmap string Attachment)
}.
Arguments From {strings} _.
Arguments To {strings} _.
Arguments Cc {strings} _.
Arguments Bcc {strings} _.
Arguments ReplyTo {strings} _.
Arguments Subject {strings} _.
Arguments Body {strings} _.
Arguments BodyContentType {strings} _.
Arguments Attachments {strings} _.

(** The message as its fields read. [Bytes] and [attach] write to no
    slice, and are given on it. *)
Abbreviation Message := (Message_of (list string)).

(** The entries of the map; a nil map has none. *)
Definition entries (m : Message) : gmap string Attachment :=
  default ∅ (Attachments m).

Definition set_Attachments (m : Message) (a : gmap string Attachment) : Message :=
  {| From := From m; To := To m; Cc := Cc m; Bcc := Bcc m;
     ReplyTo := ReplyTo m; Subject := Subject m; Body := Body m;
     BodyContentType := BodyContentType m; Attachments := Some a |}.

Definition set_Bcc (m : Message) (bcc : list string) : Message :=
  {| From := From m; To := To m; Cc := Cc m; Bcc := bcc;
     ReplyTo := ReplyTo m; Subject := Subject m; Body := Body m;
     BodyContentType := BodyContentType m; Attachments := Attachments m |}.

(** What a call that may panic gives. *)
Inductive outcome (A : Type) : Type :=
| Returns (a : A)
| Panics.
Arguments Returns {A} a.
Arguments Panics {A}.

(** [attach]: read the file, split its path, store the attachment under
    the file name. [ReadFile] is the file system at the time of the call.
    An assignment into a nil map panics. *)
Definition attach (ReadFile : string -> list byte + error)
    (m : Message) (file : string) (inline : bool) : outcome (Message * option error) :=
  match ReadFile file with
  | inr err => Returns (m, Some err)
  | inl data =>
      let '(_, filename) := filepath_Split file in
      match Attachments m with
      | None => Panics
      | Some a =>
          Returns
            (set_Attachments m
               (<[filename := {| Filename := filename; Data := data; Inline := inline |}]> a),
             None)
      end
  end.

Definition Attach (ReadFile : string -> list byte + error) (m : Message) (file : string) :=
  attach ReadFile m file false.

Definition Message_Inline (ReadFile : string -> list byte + error) (m : Message) (file : string) :=
  attach ReadFile m file true.

Definition newMessage (subject body bodyContentType : string) : Message :=
  {| From := EmptyString; To := []; Cc := []; Bcc := [];
     ReplyTo := EmptyString; Subject := subject; Body := body;
     BodyContentType := bodyContentType; Attachments := Some ∅ |}.

Definition NewMessage (subject body : string) : Message :=
  newMessage subject body "text/plain".

Definition NewHTMLMessage (subject body : string) : Message :=
  newMessage subject body "text/html".

(** The arrays of strings that exist when a function of [email.go] is
    called: [st a i] is the element at index [i] of array [a]. An array
    reaches as far as the capacities of the slices on it; Go lets no slice
    reach beyond. *)
Definition Store := nat -> nat -> string.

(** A [[]string]. [Window a o n c] is the slice of length [n] and capacity
    [c] that starts at index [o] of array [a]; slices on one array share its
    cells. A nil slice is a window of length and capacity zero. [Fresh l] is
    a slice on an array of its own, as [append] allocates one: no other
    slice reaches its cells, so its elements [l] are kept in the value. *)
Inductive Slice :=
| Window (a o n c : nat)
| Fresh (l : list string).

(** [len(s)] and [s[i]]. *)
Definition len (s : Slice) : nat :=
  match s with
  | Window _ _ n _ => n
  | Fresh l => length l
  end.

Definition index (st : Store) (s : Slice) (i : nat) : string :=
  match s with
  | Window a o _ _ => st a (o + i)
  | Fresh l => nth i l EmptyString
  end.

(** The elements of a slice, from first to last. *)
Definition elems (st : Store) (s : Slice) : list string :=
  match s with
  | Window a o n _ => map (fun i => st a (o + i)) (seq 0 n)
  | Fresh l => l
  end.

(** The store with [x] at index [i] of array [a]. *)
Definition write (st : Store) (a i : nat) (x : string) : Store :=
  fun a' i' => if (a' =? a)%nat && (i' =? i)%nat then x else st a' i'.

(** [append(s, x)]: with spare capacity, [x] is written into the cell
    behind the last element, in the array of [s], and the slice grows over
    it; without, the elements and [x] go to a new array. [email.go] appends
    to [tolist] only and puts the result back into it, so a new array is
    reached by [tolist] alone. *)
Definition append (st : Store) (s : Slice) (x : string) : Store * Slice :=
  match s with
  | Window a o n c =>
      if (n <? c)%nat
      then (write st a (o + n) x, Window a o (S n) c)
      else (st, Fresh (elems st s ++ [x]))
  | Fresh l => (st, Fresh (l ++ [x]))
  end.

(** [for _, x := range s { tolist = append(tolist, x) }], from index [i]
    with [n] elements to go: the length of [s] is fixed when the loop
    starts, and [s[i]] is read when its turn comes. *)
Fixpoint range_append (st : Store) (s : Slice) (i n : nat) (tolist : Slice)
    : Store * Slice :=
  match n with
  | O => (st, tolist)
  | S n' =>
      let x := index st s i in
      let '(st, tolist) := append st tolist x in
      range_append st s (S i) n' tolist
  end.

(** [Tolist]: [tolist := m.To], then one [append] per element of [m.Cc] and
    of [m.Bcc]. The result is the store as the appends leave it and the
    slice returned. *)
Definition Tolist (st : Store) (m : Message_of Slice) : Store * Slice :=
  let tolist := To m in
  let '(st, tolist) := range_append st (Cc m) 0 (len (Cc m)) tolist in
  let '(st, tolist) := range_append st (Bcc m) 0 (len (Bcc m)) tolist in
  (st, tolist).

(** The message in memory as its fields read in store [st]. *)
Definition load (st : Store) (m : Message_of Slice) : Message :=
  {| From := From m; To := elems st (To m); Cc := elems st (Cc m);
     Bcc := elems st (Bcc m); ReplyTo := ReplyTo m; Subject := Subject m;
     Body := Body m; BodyContentType := BodyContentType m;
     Attachments := Attachments m |}.

(** A message in memory with each of its three slices on an array of its
    own. *)
Definition unshared (m : Message) : Message_of Slice :=
  {| From := From m; To := Fresh (To m); Cc := Fresh (Cc m);
     Bcc := Fresh (Bcc m); ReplyTo := ReplyTo m; Subject := Subject m;
     Body := Body m; BodyContentType := BodyContentType m;
     Attachments := Attachments m |}.

Definition boundary : string := "f46d043c813270fc6b04c2d223da".

(** The loop that writes the base64 text:
    [for i, l := 0, len(b); i < l; i++ { buf.WriteByte(b[i]);
       if (i+1)%76 == 0 { buf.WriteString(CRLF) } }];
    [b] is what is left from index [i] on. *)
Fixpoint write_base64 (b : list byte) (i : Z) (buf : Buffer) : Buffer :=
  match b with
  | [] => buf
  | bi :: rest =>
      let buf := WriteByte buf bi in
      let buf := if ((i + 1) mod 76 =? 0)%Z then WriteString buf CRLF else buf in
      write_base64 rest (i + 1)%Z buf
  end.

(** The body of the loop over the attachments. *)
Definition write_attachment (buf : Buffer) (attachment : Attachment) : Buffer :=
  let buf := WriteString buf (CRLF +:+ CRLF +:+ "--" +:+ boundary +:+ CRLF) in
  let buf :=
    if Inline attachment then
      let buf := WriteString buf ("Content-Type: message/rfc822" +:+ CRLF) in
      let buf :=
        WriteString buf
          ("Content-Disposition: inline; filename=" +:+ DQUOTE
           +:+ Filename attachment +:+ DQUOTE +:+ CRLF +:+ CRLF) in
      Write buf (Data attachment)
    else
      let buf := WriteString buf ("Content-Type: application/octet-stream" +:+ CRLF) in
      let buf := WriteString buf ("Content-Transfer-Encoding: base64" +:+ CRLF) in
      let buf :=
        WriteString buf
          ("Content-Disposition: attachment; filename=" +:+ DQUOTE
           +:+ Filename attachment +:+ DQUOTE +:+ CRLF +:+ CRLF) in
      let b := base64_Encode (Data attachment) in
      write_base64 b 0 buf in
  WriteString buf (CRLF +:+ "--" +:+ boundary).

(** [Bytes]. [date] is [time.Now().Format(time.RFC822)]; [visit] is the
    order in which [range m.Attachments] yields the entries of the map. *)
Definition Bytes_with (date : string) (visit : list (string * Attachment))
    (m : Message) : list byte :=
  let buf : Buffer := [] in
  let buf := WriteString buf ("From: " +:+ From m +:+ CRLF) in
  let buf := WriteString buf ("Date: " +:+ date +:+ CRLF) in
  let buf := WriteString buf ("To: " +:+ strings_Join (To m) "," +:+ CRLF) in
  let buf :=
    if (0 <? length (Cc m))%nat
    then WriteString buf ("Cc: " +:+ strings_Join (Cc m) "," +:+ CRLF)
    else buf in
  let buf := WriteString buf ("Subject: " +:+ Subject m +:+ CRLF) in
  let buf :=
    if (0 <? String.length (ReplyTo m))%nat
    then WriteString buf ("Reply-To: " +:+ ReplyTo m +:+ CRLF)
    else buf in
  let buf := WriteString buf ("MIME-Version: 1.0" +:+ CRLF) in
  let buf :=
    if (0 <? size (entries m))%nat then
      let buf :=
        WriteString buf
          ("Content-Type: multipart/mixed; boundary=" +:+ boundary +:+ CRLF) in
      WriteString buf ("--" +:+ boundary +:+ CRLF)
    else buf in
  let buf :=
    WriteString buf
      ("Content-Type: " +:+ BodyContentType m +:+ "; charset=utf-8" +:+ CRLF +:+ CRLF) in
  let buf := WriteString buf (Body m) in
  let buf := WriteString buf CRLF in
  let buf :=
    if (0 <? size (entries m))%nat then
      let buf := fold_left (fun buf kv => write_attachment buf (snd kv)) visit buf in
      WriteString buf "--"
    else buf in
  buf.

(** The results [m.Bytes()] can have at time [date]: one for each order
    in which the map can be visited. *)
Definition Bytes (date : string) (m : Message) (out : list byte) : Prop :=
  exists visit,
    visit ≡ₚ map_to_list (entries m) /\ out = Bytes_with date visit m.

(* ===================================================================== *)
(** ** The LOGIN authenticator *)
(* ===================================================================== *)

(** [smtp.ServerInfo]. *)
Record ServerInfo := {
  Name : string;
  TLS : bool;
  Auth : list string
}.

(** The interface [smtp.Auth]. *)
Record smtp_Auth := {
  Start : ServerInfo -> string * option (list byte) * option error;
  Next : list byte -> bool -> option (list byte) * option error
}.

Record loginAuth := {
  username : string;
  password : string;
  host : string
}.

(** The loop of [Start] over [server.Auth]: [advertised] becomes true at
    the first mechanism that is LOGIN, and the loop ends there. *)
Fixpoint login_advertised (mechanisms : list string) : bool :=
  match mechanisms with
  | [] => false
  | mechanism :: rest =>
      if String.eqb mechanism "LOGIN" then true else login_advertised rest
  end.

Definition loginAuth_Start (a : loginAuth) (server : ServerInfo)
    : string * option (list byte) * option error :=
  if negb (TLS server) && negb (login_advertised (Auth server)) then
    (EmptyString, None, Some "LoginAuth: Unencrypted connection")
  else if negb (String.eqb (Name server) (host a)) then
    (EmptyString, None, Some "LoginAuth: Wrong host name")
  else
    ("LOGIN", None, None).

(** The word [Next] switches on. *)
Definition command_of (fromServer : list byte) : string :=
  strings_ToLower (strings_TrimSuffix (string_of fromServer) ":").

Definition loginAuth_Next (a : loginAuth) (fromServer : list byte) (more : bool)
    : option (list byte) * option error :=
  if negb more then (None, None)
  else
    let command := command_of fromServer in
    if String.eqb command "username" then (Some (bytes_of (username a)), None)
    else if String.eqb command "password" then (Some (bytes_of (password a)), None)
    else (None, Some ("LoginAuth: unexpected server challenge: " +:+ command)).

Definition LoginAuth (username password host : string) : smtp_Auth :=
  let a := {| username := username; password := password; host := host |} in
  {| Start := loginAuth_Start a; Next := loginAuth_Next a |}.

(* ===================================================================== *)
(** ** Sending *)
(* ===================================================================== *)

(** What [Send] asks of the SMTP client, one constructor per call. *)
Inductive Event :=
| EDial (addr : string)
| EHello (localName : string)
| EStartTLS (ServerName : string) (InsecureSkipVerify : bool)
| EAuth (a : smtp_Auth)
| EMail (from : string)
| ERcpt (to : string)
| EData
| EWrite (p : list byte)
| EWriterClose
| EQuit
| EClose.

(** The world outside [email.go]: how the client and the relay answer a
    call given the calls made so far, what [c.Extension] reports then, and
    the host [net.SplitHostPort] finds in an address (the empty string when
    it fails: [Send] drops its error). *)
Record World := {
  respond : list Event -> Event -> option error;
  Extension : list Event -> string -> bool;
  SplitHostPort : string -> string
}.

(** Computations of [Send]: they extend the history of calls, and end in
    an error ([return err]) or a value. *)
Definition smtp (A : Type) : Type := list Event -> list Event * (error + A).

Definition ret {A} (a : A) : smtp A := fun h => (h, inr a).

Definition bind {A B} (c : smtp A) (k : A -> smtp B) : smtp B :=
  fun h =>
    match c h with
    | (h', inl err) => (h', inl err)
    | (h', inr a) => k a h'
    end.

Notation "x <- c ;; k" := (bind c (fun x => k))
  (at level 100, c at next level, right associativity).
Notation "c ;;; k" := (bind c (fun _ => k))
  (at level 100, right associativity).

(** A call that returns only an error: [if err = c.X(..); err != nil
    { return err }]. *)
Definition call (w : World) (e : Event) : smtp unit :=
  fun h =>
    (h ++ [e],
     match respond w h e with
     | Some err => inl err
     | None => inr tt
     end).

(** [ok, _ := c.Extension(name)]. *)
Definition ask_Extension (w : World) (name : string) : smtp bool :=
  fun h => (h, inr (Extension w h name)).

(** [defer c.Close()]: the connection is closed when the rest of the
    function returns, whatever it returns; the error of [Close] is lost. *)
Definition defer_Close {A} (rest : smtp A) : smtp A :=
  fun h => let '(h', r) := rest h in (h' ++ [EClose], r).

(** [for _, to := range l { if err = c.Rcpt(to); err != nil { return err } }]. *)
Fixpoint for_Rcpt (w : World) (l : list string) : smtp unit :=
  match l with
  | [] => ret tt
  | to :: rest => call w (ERcpt to) ;;; for_Rcpt w rest
  end.

(** The body of [Send], as a computation over the history of calls. The
    connection exists once Dial has succeeded, and [defer c.Close()] covers
    what follows it. [st] is the store at the call; [m.Tolist()] is the one
    place that writes to it, and [m.Bytes()] reads the message after it. *)
Definition Send_body (w : World) (date : string) (visit : list (string * Attachment))
    (addr : string) (auth : option smtp_Auth) (st : Store) (m : Message_of Slice)
    (skipverify : bool) : smtp unit :=
  call w (EDial addr) ;;;
  defer_Close (
    let host := SplitHostPort w addr in
    call w (EHello host) ;;;
    ok <- ask_Extension w "STARTTLS" ;;
    (if ok then call w (EStartTLS host skipverify) else ret tt) ;;;
    match auth with
    | Some a =>
        ok <- ask_Extension w "AUTH" ;;
        if ok then call w (EAuth a) else ret tt
    | None => ret tt
    end ;;;
    call w (EMail (From m)) ;;;
    (let '(st, tolist) := Tolist st m in
     for_Rcpt w (elems st tolist) ;;;
     call w EData ;;;
     call w (EWrite (Bytes_with date visit (load st m))) ;;;
     call w EWriterClose ;;;
     call w EQuit)).

(** What the caller sees of a computation: the calls made and the error. *)
Definition returned {A} (x : list Event * (error + A)) : list Event * option error :=
  match x with
  | (h, inl err) => (h, Some err)
  | (h, inr _) => (h, None)
  end.

(** [Send] on a fresh connection: the calls made, in order, and the error
    returned. *)
Definition Send (w : World) (date : string) (visit : list (string * Attachment))
    (addr : string) (auth : option smtp_Auth) (st : Store) (m : Message_of Slice)
    (skipverify : bool) : list Event * option error :=
  returned (Send_body w date visit addr auth st m skipverify []).

(* ===================================================================== *)
(** ** Definitions the statements use *)
(* ===================================================================== *)

(** Perform the steps in order until one returns an error: the calls made
    and the first error, if any. *)
Fixpoint perform (w : World) (h : list Event) (steps : list Event)
    : list Event * option error :=
  match steps with
  | [] => (h, None)
  | e :: rest =>
      match respond w h e with
      | Some err => (h ++ [e], Some err)
      | None => perform w (h ++ [e]) rest
      end
  end.

(** What [m.Tolist()] returns, element by element, and the message as its
    fields read once it has returned. *)
Definition recipients (st : Store) (m : Message_of Slice) : list string :=
  let '(st, tolist) := Tolist st m in elems st tolist.

Definition after_Tolist (st : Store) (m : Message_of Slice) : Message :=
  load (fst (Tolist st m)) m.

(** The steps of a [Send] in which no step fails: Dial, Hello, StartTLS if
    the server advertises STARTTLS, Auth if [auth] is not nil and the
    server advertises AUTH, Mail, one Rcpt per element of [m.Tolist()],
    Data, the write of [m.Bytes()], the close of the writer, Quit. *)
Definition steps_in_order (w : World) (date : string)
    (visit : list (string * Attachment)) (addr : string)
    (auth : option smtp_Auth) (st : Store) (m : Message_of Slice)
    (skipverify : bool) : list Event :=
  let host := SplitHostPort w addr in
  let hello := [EDial addr; EHello host] in
  let starttls :=
    if Extension w hello "STARTTLS" then [EStartTLS host skipverify] else [] in
  let authenticate :=
    match auth with
    | Some a => if Extension w (hello ++ starttls) "AUTH" then [EAuth a] else []
    | None => []
    end in
  hello ++ starttls ++ authenticate
  ++ [EMail (From m)]
  ++ map ERcpt (recipients st m)
  ++ [EData; EWrite (Bytes_with date visit (after_Tolist st m)); EWriterClose; EQuit].

(** The recipients of the Rcpt calls of a history, in order. *)
Definition rcpts (h : list Event) : list string :=
  omap (fun e => match e with ERcpt to => Some to | _ => None end) h.

(** The full lines of 76 characters of a text, and what is left after
    them. *)
Definition full_lines (b : list byte) : list (list byte) :=
  reshape (replicate (length b / 76) 76) b.

Definition last_line (b : list byte) : list byte :=
  drop (76 * (length b / 76)) b.

(** A text with a CRLF after every 76th character. *)
Definition wrap76 (b : list byte) : list byte :=
  concat (map (fun line => line ++ bytes_of CRLF) (full_lines b)) ++ last_line b.

(** The header fields of a message, up to the MIME version. *)
Definition header_fields (date : string) (m : Message) : string :=
  "From: " +:+ From m +:+ CRLF
  +:+ "Date: " +:+ date +:+ CRLF
  +:+ "To: " +:+ strings_Join (To m) "," +:+ CRLF
  +:+ (if (0 <? length (Cc m))%nat
       then "Cc: " +:+ strings_Join (Cc m) "," +:+ CRLF else EmptyString)
  +:+ "Subject: " +:+ Subject m +:+ CRLF
  +:+ (if (0 <? String.length (ReplyTo m))%nat
       then "Reply-To: " +:+ ReplyTo m +:+ CRLF else EmptyString)
  +:+ "MIME-Version: 1.0" +:+ CRLF.

(** The opening of a multipart message. *)
Definition multipart_open : string :=
  "Content-Type: multipart/mixed; boundary=" +:+ boundary +:+ CRLF
  +:+ "--" +:+ boundary +:+ CRLF.

(** What [Bytes] writes before the body part and after it. *)
Definition before_body (date : string) (m : Message) : list byte :=
  bytes_of (header_fields date m)
  ++ (if (0 <? size (entries m))%nat then bytes_of multipart_open else []).

Definition after_body (visit : list (string * Attachment)) (m : Message) : list byte :=
  if (0 <? size (entries m))%nat
  then concat (map (fun kv => write_attachment [] (snd kv)) visit) ++ bytes_of "--"
  else [].

(** Two messages with the same body and body content type. *)
Definition same_body (m m0 : Message) : Prop :=
  Body m = Body m0 /\ BodyContentType m = BodyContentType m0.

(** Two messages that differ at most in their Bcc field. *)
Definition differ_only_in_Bcc (m1 m2 : Message) : Prop :=
  From m1 = From m2 /\ To m1 = To m2 /\ Cc m1 = Cc m2
  /\ ReplyTo m1 = ReplyTo m2 /\ Subject m1 = Subject m2
  /\ Body m1 = Body m2 /\ BodyContentType m1 = BodyContentType m2
  /\ Attachments m1 = Attachments m2.

(** The two ways an attachment is written. *)
Definition inline_part (a : Attachment) : list byte :=
  bytes_of ("Content-Type: message/rfc822" +:+ CRLF
            +:+ "Content-Disposition: inline; filename="
            +:+ DQUOTE +:+ Filename a +:+ DQUOTE +:+ CRLF +:+ CRLF)
  ++ Data a.

Definition base64_part (a : Attachment) : list byte :=
  bytes_of ("Content-Type: application/octet-stream" +:+ CRLF
            +:+ "Content-Transfer-Encoding: base64" +:+ CRLF
            +:+ "Content-Disposition: attachment; filename="
            +:+ DQUOTE +:+ Filename a +:+ DQUOTE +:+ CRLF +:+ CRLF)
  ++ wrap76 (base64_Encode (Data a)).

(** A message with one file attached and one inlined. *)
Definition example_attachments : gmap string Attachment :=
  <["notes.txt" := {| Filename := "notes.txt"; Data := bytes_of "foobar";
                      Inline := false |}]>
    (<["mail.eml" := {| Filename := "mail.eml"; Data := bytes_of "Subject: x";
                        Inline := true |}]> ∅).

Definition example_message : Message :=
  {| From := "a@example.org"; To := ["b@example.org"]; Cc := [];
     Bcc := ["c@example.org"]; ReplyTo := EmptyString; Subject := "Hi";
     Body := "Hello"; BodyContentType := "text/plain";
     Attachments := Some example_attachments |}.

(** An array with the elements of [l]. *)
Definition cells_of (l : list string) (i : nat) : string := nth i l EmptyString.

(** [example_message] in memory: [To] and [Bcc] on arrays of their own,
    [Cc] nil. *)
Definition example_store : Store :=
  fun a =>
    match a with
    | 0 => cells_of ["b@example.org"]
    | 1 => cells_of ["c@example.org"]
    | _ => cells_of []
    end.

Definition example_message_in_memory : Message_of Slice :=
  {| From := "a@example.org"; To := Window 0 0 1 1; Cc := Window 2 0 0 0;
     Bcc := Window 1 0 1 1; ReplyTo := EmptyString; Subject := "Hi";
     Body := "Hello"; BodyContentType := "text/plain";
     Attachments := Some example_attachments |}.

(** Three addresses in one array, [addrs], and a message with
    [To = addrs[:1]], [Bcc = addrs[1:]] and [Cc] on an array of its own. *)
Definition shared_store : Store :=
  fun a =>
    match a with
    | 0 => cells_of ["a@example.org"; "b@example.org"; "c@example.org"]
    | 1 => cells_of ["boss@example.org"]
    | _ => cells_of []
    end.

Definition shared_message : Message_of Slice :=
  {| From := "me@example.org"; To := Window 0 0 1 3; Cc := Window 1 0 1 1;
     Bcc := Window 0 1 2 2; ReplyTo := EmptyString; Subject := "Hi";
     Body := "Hello"; BodyContentType := "text/plain";
     Attachments := Some ∅ |}.

(** The cells [append] can write without a new array: the spare capacity
    behind the elements of a window. *)
Definition spare (s : Slice) (a i : nat) : Prop :=
  match s with
  | Window a' o n c => a = a' /\ o + n <= i < o + c
  | Fresh _ => False
  end.

(** No element of [s] lies in the spare capacity of [t]. *)
Definition apart (t s : Slice) : Prop :=
  match s with
  | Window a o n _ => forall i, i < n -> ~ spare t a (o + i)
  | Fresh _ => True
  end.

(** The connection is encrypted, or the server advertises LOGIN. *)
Definition passes_encryption_check (server : ServerInfo) : Prop :=
  TLS server = true \/ "LOGIN" ∈ Auth server.

(** The messages a caller can have: made by [NewMessage] or
    [NewHTMLMessage], then changed by calls of [Attach] and [Inline] that
    return no error (with the file system of the time of each call) and by
    assignments to the fields other than [Attachments]. *)
Inductive composed : Message -> Prop :=
| composed_NewMessage subject body :
    composed (NewMessage subject body)
| composed_NewHTMLMessage subject body :
    composed (NewHTMLMessage subject body)
| composed_Attach ReadFile m file m' :
    composed m -> Attach ReadFile m file = Returns (m', None) -> composed m'
| composed_Inline ReadFile m file m' :
    composed m -> Message_Inline ReadFile m file = Returns (m', None) -> composed m'
| composed_fields m m' :
    composed m -> Attachments m' = Attachments m -> composed m'.

(** [name] is the final component of [path]: what follows the last
    separator, or all of [path] when it has none. *)
Definition final_component (path name : string) : Prop :=
  exists dir,
    path = dir +:+ name
    /\ (forall c, c ∈ list_ascii_of_string name -> IsPathSeparator c = false)
    /\ (dir = EmptyString \/ exists d, dir = d +:+ "/").

(** A file system with two files of the same name. *)
Definition example_files (file : string) : list byte + error :=
  if String.eqb file "a/notes.txt" then inl (bytes_of "first")
  else if String.eqb file "b/notes.txt" then inl (bytes_of "second")
  else inr "open: no such file or directory".

(** A relay that advertises STARTTLS and AUTH and refuses one
    recipient. *)
Definition example_world : World :=
  {| respond := fun _ e =>
       match e with
       | ERcpt to =>
           if String.eqb to "nobody@example.org" then Some "550 no such user"
           else None
       | _ => None
       end;
     Extension := fun _ name =>
       String.eqb name "STARTTLS" || String.eqb name "AUTH";
     SplitHostPort := fun _ => "mail.example.org" |}.

(** A text without its carriage returns and line feeds, as a reader of
    the base64 lines takes it. *)
Definition is_line_break (c : byte) : bool :=
  Byte.eqb c Byte.x0d || Byte.eqb c Byte.x0a.

Definition without_line_breaks (b : list byte) : list byte :=
  List.filter (fun c => negb (is_line_break c)) b.

(** The test vectors of RFC 4648. *)
Example base64_RFC4648 :
  string_of (base64_Encode (bytes_of "")) = ""
  /\ string_of (base64_Encode (bytes_of "f")) = "Zg=="
  /\ string_of (base64_Encode (bytes_of "fo")) = "Zm8="
  /\ string_of (base64_Encode (bytes_of "foo")) = "Zm9v"
  /\ string_of (base64_Encode (bytes_of "foob")) = "Zm9vYg=="
  /\ string_of (base64_Encode (bytes_of "fooba")) = "Zm9vYmE="
  /\ string_of (base64_Encode (bytes_of "foobar")) = "Zm9vYmFy".
Proof. repeat split; vm_compute; reflexivity. Qed.

Example Split_examples :
  filepath_Split "static/myfile.css" = ("static/", "myfile.css")
  /\ filepath_Split "myfile.css" = ("", "myfile.css")
  /\ filepath_Split "/a/b/" = ("/a/b/", "").
Proof. repeat split; vm_compute; reflexivity. Qed.

Example TrimSuffix_examples :
  strings_ToLower (strings_TrimSuffix "Username:" ":") = "username"
  /\ strings_TrimSuffix "Username" ":" = "Username"
  /\ strings_TrimSuffix "" ":" = "".
Proof. repeat split; vm_compute; reflexivity. Qed.

Example Join_examples :
  strings_Join [] "," = ""
  /\ strings_Join ["a@x.org"] "," = "a@x.org"
  /\ strings_Join ["a@x.org"; "b@x.org"; "c@x.org"] "," = "a@x.org,b@x.org,c@x.org".
Proof. repeat split; vm_compute; reflexivity. Qed.

Example Bytes_plain_message :
  string_of
    (Bytes_with "31 Oct 26 12:00 UTC" []
       {| From := "a@example.org"; To := ["b@example.org"; "c@example.org"];
          Cc := []; Bcc := ["d@example.org"]; ReplyTo := EmptyString;
          Subject := "Hi"; Body := "Hello"; BodyContentType := "text/plain";
          Attachments := Some ∅ |}) =
  "From: a@example.org" +:+ CRLF
  +:+ "Date: 31 Oct 26 12:00 UTC" +:+ CRLF
  +:+ "To: b@example.org,c@example.org" +:+ CRLF
  +:+ "Subject: Hi" +:+ CRLF
  +:+ "MIME-Version: 1.0" +:+ CRLF
  +:+ "Content-Type: text/plain; charset=utf-8" +:+ CRLF +:+ CRLF
  +:+ "Hello" +:+ CRLF.
Proof. vm_compute. reflexivity. Qed.

Example Send_refused_recipient :
  let m :=
    {| From := "a@example.org"; To := ["b@example.org"];
       Cc := ["nobody@example.org"]; Bcc := ["d@example.org"];
       ReplyTo := EmptyString; Subject := "Hi"; Body := "Hello";
       BodyContentType := "text/plain"; Attachments := Some ∅ |} in
  Send example_world "31 Oct 26 12:00 UTC" [] "mail.example.org:25" None
    example_store (unshared m) false =
  ([ EDial "mail.example.org:25"; EHello "mail.example.org";
     EStartTLS "mail.example.org" false; EMail "a@example.org";
     ERcpt "b@example.org"; ERcpt "nobody@example.org"; EClose ],
   Some "550 no such user").
Proof. vm_compute. reflexivity. Qed.

(* ===================================================================== *)
(** ** Sending: the order of the steps *)
(* ===================================================================== *)

Section Stepping.
Context (w : World).

Lemma perform_app steps1 : forall h steps2,
  perform w h (steps1 ++ steps2) =
  match perform w h steps1 with
  | (h', Some err) => (h', Some err)
  | (h', None) => perform w h' steps2
  end.
Proof.
  induction steps1 as [|e steps1 IH]; intros h steps2; simpl; [reflexivity|].
  destruct (respond w h e); [reflexivity|]. apply IH.
Qed.

Lemma returned_call {A} e (k : smtp A) h :
  returned (bind (call w e) (fun _ => k) h) =
  match respond w h e with
  | Some err => (h ++ [e], Some err)
  | None => returned (k (h ++ [e]))
  end.
Proof. unfold bind, call. destruct (respond w h e); reflexivity. Qed.

Lemma returned_last_call e h :
  returned (call w e h) = (h ++ [e], respond w h e).
Proof. unfold call. simpl. destruct (respond w h e); reflexivity. Qed.

Lemma returned_ret {A B} (a : A) (k : A -> smtp B) h :
  returned (bind (ret a) k h) = returned (k a h).
Proof. reflexivity. Qed.

Lemma returned_ask {A} name (k : bool -> smtp A) h :
  returned (bind (ask_Extension w name) k h) = returned (k (Extension w h name) h).
Proof. reflexivity. Qed.

Lemma returned_defer {A} (c : smtp A) h :
  returned (defer_Close c h) =
  (fst (returned (c h)) ++ [EClose], snd (returned (c h))).
Proof. unfold defer_Close. destruct (c h) as [h' [err|a]]; reflexivity. Qed.

Lemma bind_assoc {A B C} (c : smtp A) (f : A -> smtp B) (k : B -> smtp C) h :
  bind (bind c f) k h = bind c (fun a => bind (f a) k) h.
Proof. unfold bind. destruct (c h) as [h' [err|a]]; reflexivity. Qed.

Lemma returned_for_Rcpt {A} l : forall h (k : smtp A),
  returned (bind (for_Rcpt w l) (fun _ => k) h) =
  match perform w h (map ERcpt l) with
  | (h', Some err) => (h', Some err)
  | (h', None) => returned (k h')
  end.
Proof.
  induction l as [|to l IH]; intros h k; simpl; [reflexivity|].
  rewrite bind_assoc, returned_call.
  destruct (respond w h (ERcpt to)); [reflexivity|]. apply IH.
Qed.
End Stepping.

Ltac send_step :=
  first
    [ rewrite returned_call
    | rewrite returned_last_call
    | rewrite returned_ask
    | rewrite returned_ret ];
  cbn [perform app];
  try match goal with
      | |- context [respond ?w ?h ?e] => destruct (respond w h e); [reflexivity|]
      end.

(** [Send] against [perform] over [steps_in_order]. *)
Lemma Send_perform :
  forall w date visit addr auth st m skipverify,
    Send w date visit addr auth st m skipverify =
    match respond w [] (EDial addr) with
    | Some err => ([EDial addr], Some err)
    | None =>
        let '(h, r) :=
          perform w [] (steps_in_order w date visit addr auth st m skipverify) in
        (h ++ [EClose], r)
    end.
Proof.
  intros w date visit addr auth st m skipverify.
  unfold Send, Send_body, steps_in_order, recipients, after_Tolist.
  destruct (Tolist st m) as [st1 tolist]. cbv beta iota. cbn [fst].
  rewrite returned_call. simpl.
  destruct (respond w [] (EDial addr)) as [err|]; [reflexivity|].
  rewrite returned_defer.
  set (host := SplitHostPort w addr).
  set (tail := [EData; EWrite (Bytes_with date visit (load st1 m)); EWriterClose;
                EQuit]).
  send_step. send_step.
  assert (Hrest : forall h,
    returned
      (bind (for_Rcpt w (elems st1 tolist)) (fun _ =>
         bind (call w EData) (fun _ =>
         bind (call w (EWrite (Bytes_with date visit (load st1 m)))) (fun _ =>
         bind (call w EWriterClose) (fun _ => call w EQuit)))) h) =
    perform w h (map ERcpt (elems st1 tolist) ++ tail)).
  { intros h. rewrite returned_for_Rcpt, perform_app.
    destruct (perform w h (map ERcpt (elems st1 tolist))) as [h1 [err|]];
      [reflexivity|].
    unfold tail. repeat send_step. reflexivity. }
  destruct (Extension w [EDial addr; EHello host] "STARTTLS");
    destruct auth as [a|]; cbn [perform app];
    repeat first [ rewrite bind_assoc | send_step ];
    try (destruct (Extension w _ "AUTH"); cbn [perform app]; repeat send_step);
    rewrite Hrest;
    match goal with
    | |- context [perform ?w ?h ?l] => destruct (perform w h l); reflexivity
    end.
Qed.

(* ===================================================================== *)
(** ** Slices: what [append] reads and writes *)
(* ===================================================================== *)

Lemma elems_length st s : length (elems st s) = len s.
Proof.
  destruct s as [a o n c|l]; cbn [elems len]; [|reflexivity].
  rewrite length_map, length_seq. reflexivity.
Qed.

Lemma elems_index st s : elems st s = map (index st s) (seq 0 (len s)).
Proof.
  destruct s as [a o n c|l]; cbn [elems len index]; [reflexivity|].
  symmetry. apply nth_ext with (d := EmptyString) (d' := EmptyString).
  - rewrite length_map, length_seq. reflexivity.
  - intros i Hi. rewrite length_map, length_seq in Hi.
    rewrite (nth_indep _ _ (nth 0 l EmptyString)) by (rewrite length_map, length_seq; lia).
    change (nth 0 l EmptyString) with ((fun i => nth i l EmptyString) 0).
    rewrite map_nth, seq_nth by lia. reflexivity.
Qed.

Lemma write_same st a i x : write st a i x a i = x.
Proof. unfold write. rewrite !Nat.eqb_refl. reflexivity. Qed.

Lemma write_other st a i x a' i' :
  a' <> a \/ i' <> i -> write st a i x a' i' = st a' i'.
Proof.
  intros H. unfold write.
  destruct (Nat.eqb_spec a' a), (Nat.eqb_spec i' i); try reflexivity.
  destruct H; contradiction.
Qed.

(** Whatever is shared, the slice [append] returns has the elements of
    its argument and the new one. *)
Lemma append_elems st t x :
  elems (append st t x).1 (append st t x).2 = elems st t ++ [x].
Proof.
  destruct t as [a o n c|l]; cbn [append]; [|reflexivity].
  destruct (n <? c)%nat; cbn [fst snd elems]; [|reflexivity].
  rewrite seq_S, map_app. cbn [map Nat.add]. rewrite write_same. f_equal.
  apply map_ext_in. intros i Hi. apply in_seq in Hi.
  apply write_other. right. lia.
Qed.

(** [append] writes to spare capacity only, and leaves no more of it. *)
Lemma append_frame st t x a i :
  ~ spare t a i -> (append st t x).1 a i = st a i.
Proof.
  intros Hspare. destruct t as [a' o n c|l]; cbn [append]; [|reflexivity].
  destruct (Nat.ltb_spec n c); cbn [fst]; [|reflexivity].
  apply write_other.
  destruct (Nat.eq_dec a a') as [->|]; [|left; assumption].
  right. intros ->. apply Hspare. cbn [spare]. split; [reflexivity|lia].
Qed.

Lemma append_spare st t x a i :
  spare (append st t x).2 a i -> spare t a i.
Proof.
  destruct t as [a' o n c|l]; cbn [append]; [|intros []].
  destruct (n <? c)%nat; cbn [snd spare]; [|intros []].
  intros [-> Hi]. split; [reflexivity|lia].
Qed.

(** A cell holds what it held, or what [append] was given. *)
Lemma append_cell st t x a i :
  (append st t x).1 a i = x \/ (append st t x).1 a i = st a i.
Proof.
  destruct t as [a' o n c|l]; cbn [append]; [|right; reflexivity].
  destruct (n <? c)%nat; cbn [fst]; [|right; reflexivity].
  unfold write. destruct ((a =? a')%nat && (i =? o + n)%nat); auto.
Qed.

(** The loop adds as many elements as it has turns. *)
Lemma range_append_elems s : forall n i st t,
  exists read,
    elems (range_append st s i n t).1 (range_append st s i n t).2 =
      elems st t ++ read
    /\ length read = n.
Proof.
  induction n as [|n IH]; intros i st t; cbn [range_append].
  - exists []. rewrite app_nil_r. split; reflexivity.
  - pose proof (append_elems st t (index st s i)) as Happ.
    destruct (append st t (index st s i)) as [st1 t1]. cbn [fst snd] in Happ.
    destruct (IH (S i) st1 t1) as (read & Hread & Hlen).
    exists (index st s i :: read). rewrite Hread, Happ, <- app_assoc.
    split; [reflexivity|]. cbn [length]. rewrite Hlen. reflexivity.
Qed.

(** The loop writes to the spare capacity of the slice it extends only. *)
Lemma range_append_frame s : forall n i st t a j,
  ~ spare t a j -> (range_append st s i n t).1 a j = st a j.
Proof.
  induction n as [|n IH]; intros i st t a j Hspare; cbn [range_append];
    [reflexivity|].
  pose proof (append_frame st t (index st s i) a j Hspare) as Hcell.
  pose proof (append_spare st t (index st s i) a j) as Hmono.
  destruct (append st t (index st s i)) as [st1 t1]. cbn [fst snd] in *.
  rewrite IH by tauto. exact Hcell.
Qed.

Lemma range_append_spare s : forall n i st t a j,
  spare (range_append st s i n t).2 a j -> spare t a j.
Proof.
  induction n as [|n IH]; intros i st t a j; cbn [range_append]; [tauto|].
  pose proof (append_spare st t (index st s i) a j) as Hmono.
  destruct (append st t (index st s i)) as [st1 t1]. cbn [fst snd] in *.
  intros H. apply Hmono. eapply IH. exact H.
Qed.

(** A slice apart from the spare capacity reads the same after writes to
    that capacity. *)
Lemma apart_index t s st st' i :
  apart t s -> (forall a j, ~ spare t a j -> st' a j = st a j) ->
  i < len s -> index st' s i = index st s i.
Proof.
  intros Hapart Hframe Hi. destruct s as [a o n c|l]; cbn [index]; [|reflexivity].
  apply Hframe. apply Hapart. exact Hi.
Qed.

Lemma apart_elems t s st st' :
  apart t s -> (forall a j, ~ spare t a j -> st' a j = st a j) ->
  elems st' s = elems st s.
Proof.
  intros Hapart Hframe. rewrite !elems_index. apply map_ext_in.
  intros i Hi. apply in_seq in Hi. eapply apart_index; [eassumption..|lia].
Qed.

Lemma apart_mono t t' s :
  (forall a j, spare t' a j -> spare t a j) -> apart t s -> apart t' s.
Proof.
  intros Hmono Hapart. destruct s as [a o n c|l]; cbn [apart] in *; [|exact I].
  intros i Hi Hspare. exact (Hapart i Hi (Hmono _ _ Hspare)).
Qed.

(** A slice is apart from its own spare capacity. *)
Lemma apart_self t : apart t t.
Proof.
  destruct t as [a o n c|l]; cbn [apart spare]; [|exact I].
  intros i Hi [_ H]. lia.
Qed.

(** When the slice read lies apart from the spare capacity of the slice
    extended, the loop adds the elements as they were. *)
Lemma range_append_apart s : forall n i st t,
  apart t s -> i + n <= len s ->
  elems (range_append st s i n t).1 (range_append st s i n t).2 =
  elems st t ++ map (index st s) (seq i n).
Proof.
  induction n as [|n IH]; intros i st t Hapart Hn; cbn [range_append seq map].
  - rewrite app_nil_r. reflexivity.
  - pose proof (append_elems st t (index st s i)) as Happ.
    pose proof (append_frame st t (index st s i)) as Hframe.
    pose proof (append_spare st t (index st s i)) as Hmono.
    destruct (append st t (index st s i)) as [st1 t1]. cbn [fst snd] in *.
    rewrite IH by (try lia; eapply apart_mono; eassumption).
    rewrite Happ, <- app_assoc. cbn [app]. do 2 f_equal.
    apply map_ext_in. intros j Hj. apply in_seq in Hj.
    eapply apart_index; [exact Hapart|exact Hframe|lia].
Qed.

(** The values of the cells of a slice [s] lie in [S]. *)
Lemma range_append_values (S : list string) s s' : forall n i st t,
  (forall j, j < len s -> index st s j ∈ S) ->
  (forall j, j < len s' -> index st s' j ∈ S) ->
  Forall (fun x => x ∈ S) (elems st t) ->
  i + n <= len s ->
  Forall (fun x => x ∈ S)
    (elems (range_append st s i n t).1 (range_append st s i n t).2)
  /\ (forall j, j < len s -> index (range_append st s i n t).1 s j ∈ S)
  /\ (forall j, j < len s' -> index (range_append st s i n t).1 s' j ∈ S).
Proof.
  induction n as [|n IH]; intros i st t Hs Hs' Ht Hn; cbn [range_append];
    [auto|].
  assert (Hx : index st s i ∈ S) by (apply Hs; lia).
  pose proof (append_elems st t (index st s i)) as Happ.
  pose proof (append_cell st t (index st s i)) as Hcell.
  destruct (append st t (index st s i)) as [st1 t1]. cbn [fst snd] in *.
  assert (Hkeep : forall u j, index st u j ∈ S -> index st1 u j ∈ S).
  { intros [a o k c|l] j; cbn [index]; [|tauto].
    intros H. destruct (Hcell a (o + j)) as [->| ->]; assumption. }
  apply IH; [intros; apply Hkeep; auto | intros; apply Hkeep; auto | | lia].
  rewrite Happ. apply Forall_app. split; [exact Ht|]. repeat constructor. exact Hx.
Qed.

Lemma index_elems st s j : j < len s -> index st s j ∈ elems st s.
Proof.
  intros Hj. rewrite elems_index. apply list_elem_of_fmap.
  exists j. split; [reflexivity|]. apply list_elem_of_In, in_seq. lia.
Qed.

(** Whatever is shared, [m.Tolist()] returns recipients of [m]. *)
Lemma recipients_values st m to :
  to ∈ recipients st m ->
  to ∈ To (load st m) ++ Cc (load st m) ++ Bcc (load st m).
Proof.
  unfold recipients, Tolist. cbn [load To Cc Bcc].
  set (S := elems st (To m) ++ elems st (Cc m) ++ elems st (Bcc m)).
  assert (HCc : forall j, j < len (Cc m) -> index st (Cc m) j ∈ S).
  { intros j Hj. apply elem_of_app. right. apply elem_of_app. left.
    apply index_elems. exact Hj. }
  assert (HBcc : forall j, j < len (Bcc m) -> index st (Bcc m) j ∈ S).
  { intros j Hj. apply elem_of_app. right. apply elem_of_app. right.
    apply index_elems. exact Hj. }
  assert (HTo : Forall (fun x => x ∈ S) (elems st (To m))).
  { apply Forall_forall. intros x Hx. apply elem_of_app. left. exact Hx. }
  destruct (range_append_values S (Cc m) (Bcc m) (len (Cc m)) 0 st (To m)
              HCc HBcc HTo (Nat.le_refl _)) as (Ht1 & _ & HBcc1).
  destruct (range_append st (Cc m) 0 (len (Cc m)) (To m)) as [st1 t1].
  cbn [fst snd] in *.
  destruct (range_append_values S (Bcc m) (Bcc m) (len (Bcc m)) 0 st1 t1
              HBcc1 HBcc1 Ht1 (Nat.le_refl _)) as (Ht2 & _ & _).
  destruct (range_append st1 (Bcc m) 0 (len (Bcc m)) t1) as [st2 t2].
  cbn [fst snd] in *. intros Hto.
  rewrite Forall_forall in Ht2. apply Ht2. exact Hto.
Qed.

(** [perform] makes the calls of a prefix of the steps: every step before
    the last one made has succeeded; without an error all steps are made
    and have succeeded; an error is the answer to the last step made. *)
Lemma perform_spec w steps : forall h,
  exists n,
    fst (perform w h steps) = h ++ take n steps
    /\ (forall i e, S i < n -> steps !! i = Some e ->
        respond w (h ++ take i steps) e = None)
    /\ match snd (perform w h steps) with
       | None =>
           n = length steps
           /\ forall i e, steps !! i = Some e ->
                respond w (h ++ take i steps) e = None
       | Some err =>
           exists i e,
             n = S i /\ steps !! i = Some e
             /\ respond w (h ++ take i steps) e = Some err
       end.
Proof.
  induction steps as [|e steps IH]; intros h; cbn [perform].
  - exists 0. cbn [fst snd]. rewrite app_nil_r.
    split; [reflexivity|]. split; [intros; lia|].
    split; [reflexivity|]. intros i e Hi. rewrite lookup_nil in Hi. discriminate.
  - destruct (respond w h e) as [err|] eqn:He.
    + exists 1. cbn [fst snd firstn].
      split; [reflexivity|]. split; [intros; lia|].
      exists 0, e. rewrite app_nil_r. repeat split. exact He.
    + destruct (IH (h ++ [e])) as (n & Htrace & Hbefore & Hlast).
      assert (Hshift : forall i, (h ++ [e]) ++ take i steps = h ++ take (S i) (e :: steps)).
      { intros i. rewrite <- app_assoc. reflexivity. }
      exists (S n). split; [rewrite Htrace; apply Hshift|]. split.
      * intros [|i] e' Hi Hlook.
        -- injection Hlook as <-. cbn [firstn]. rewrite app_nil_r. exact He.
        -- rewrite <- Hshift. apply Hbefore; [lia|exact Hlook].
      * destruct (snd (perform w (h ++ [e]) steps)) as [err|].
        -- destruct Hlast as (i & e' & -> & Hlook & Herr).
           exists (S i), e'. rewrite <- Hshift. repeat split; assumption.
        -- destruct Hlast as [-> Hall]. split; [reflexivity|].
           intros [|i] e' Hlook.
           ++ injection Hlook as <-. cbn [firstn]. rewrite app_nil_r. exact He.
           ++ rewrite <- Hshift. apply Hall. exact Hlook.
Qed.

Lemma rcpts_app h1 h2 : rcpts (h1 ++ h2) = rcpts h1 ++ rcpts h2.
Proof. apply omap_app. Qed.

Lemma rcpts_map_ERcpt l : rcpts (map ERcpt l) = l.
Proof. induction l as [|x l IH]; simpl; [reflexivity|]. f_equal. exact IH. Qed.

Lemma rcpts_steps_in_order w date visit addr auth st m skipverify :
  rcpts (steps_in_order w date visit addr auth st m skipverify) = recipients st m.
Proof.
  unfold steps_in_order.
  repeat rewrite rcpts_app. rewrite rcpts_map_ERcpt.
  destruct (Extension w _ "STARTTLS"); destruct auth as [a|];
    try destruct (Extension w _ "AUTH"); simpl; apply app_nil_r.
Qed.

(** C1. The calls of [Send] are a prefix of [steps_in_order]: Dial,
    Hello, StartTLS when STARTTLS is advertised, Auth when [auth] is not
    nil and AUTH is advertised, Mail, one Rcpt per recipient, Data, write,
    close, Quit. Every step before the last one made has returned no
    error. When [Send] returns an error, it is the error of the last step
    made, and no later step is made; when it returns none, all the steps
    are made and none has failed. The deferred [c.Close()] follows the
    steps unless Dial itself has failed. *)
Theorem Send_steps_until_first_error :
  forall w date visit addr auth st m skipverify,
    let steps := steps_in_order w date visit addr auth st m skipverify in
    let run := Send w date visit addr auth st m skipverify in
    exists n,
      fst run =
        take n steps
        ++ match respond w [] (EDial addr) with Some _ => [] | None => [EClose] end
      /\ (forall i e, S i < n -> steps !! i = Some e ->
          respond w (take i steps) e = None)
      /\ match snd run with
         | None =>
             n = length steps
             /\ forall i e, steps !! i = Some e -> respond w (take i steps) e = None
         | Some err =>
             exists i e,
               n = S i /\ steps !! i = Some e
               /\ respond w (take i steps) e = Some err
         end.
Proof.
  intros w date visit addr auth st m skipverify steps run. subst run.
  rewrite Send_perform. fold steps.
  destruct (respond w [] (EDial addr)) as [err|] eqn:HDial.
  - exists 1. cbn [fst snd]. split; [|split].
    + rewrite app_nil_r. reflexivity.
    + intros; lia.
    + exists 0, (EDial addr). repeat split. exact HDial.
  - destruct (perform_spec w steps []) as (n & Htrace & Hbefore & Hlast).
    exists n. destruct (perform w [] steps) as [h r]. cbn [fst snd app] in *.
    subst h. repeat split; assumption.
Qed.

Lemma Send_steps_until_first_error_witness :
  exists n,
    fst (Send example_world "31 Oct 26 12:00 UTC" (map_to_list example_attachments)
           "mail.example.org:25" None example_store example_message_in_memory false) =
    take n (steps_in_order example_world "31 Oct 26 12:00 UTC"
              (map_to_list example_attachments) "mail.example.org:25" None
              example_store example_message_in_memory false)
    ++ [EClose].
Proof.
  destruct (Send_steps_until_first_error example_world "31 Oct 26 12:00 UTC"
              (map_to_list example_attachments) "mail.example.org:25" None
              example_store example_message_in_memory false) as (n & Htrace & _).
  exists n. exact Htrace.
Defined.

(** C8, at a message the code fails on. Three addresses share one array,
    [To] is the first of them and [Bcc] the other two, and [Cc] is one
    address elsewhere. The first [append] writes the [Cc] address over the
    first [Bcc] address, in the spare capacity behind [m.To]; [Tolist]
    returns the [Cc] address three times and neither [Bcc] address, leaves
    [m.Bcc] overwritten, and [Send] names the recipients so returned. *)
Theorem Tolist_overwrites_shared_recipients :
  To (load shared_store shared_message) ++ Cc (load shared_store shared_message)
    ++ Bcc (load shared_store shared_message) =
    ["a@example.org"; "boss@example.org"; "b@example.org"; "c@example.org"]
  /\ recipients shared_store shared_message =
     ["a@example.org"; "boss@example.org"; "boss@example.org"; "boss@example.org"]
  /\ Bcc (after_Tolist shared_store shared_message) =
     ["boss@example.org"; "boss@example.org"]
  /\ rcpts (fst (Send example_world "31 Oct 26 12:00 UTC" [] "mail.example.org:25"
                   None shared_store shared_message false)) =
     ["a@example.org"; "boss@example.org"; "boss@example.org"; "boss@example.org"].
Proof. repeat split; vm_compute; reflexivity. Qed.

(* ===================================================================== *)
(** ** Serialization: the shape of [Bytes] *)
(* ===================================================================== *)

Lemma bytes_of_app s1 s2 : bytes_of (s1 +:+ s2) = bytes_of s1 ++ bytes_of s2.
Proof.
  unfold bytes_of, list_byte_of_string.
  induction s1 as [|c s1 IH]; [reflexivity|].
  change (String c s1 +:+ s2) with (String c (s1 +:+ s2)).
  simpl. f_equal. exact IH.
Qed.

Lemma write_base64_buf b : forall i buf,
  write_base64 b i buf = buf ++ write_base64 b i [].
Proof.
  induction b as [|x b IH]; intros i buf; simpl.
  - symmetry. apply app_nil_r.
  - unfold WriteByte, WriteString.
    destruct ((i + 1) mod 76 =? 0)%Z.
    + rewrite (IH _ ((buf ++ [x]) ++ bytes_of CRLF)).
      rewrite (IH _ (([] ++ [x]) ++ bytes_of CRLF)).
      simpl. rewrite <- !app_assoc. reflexivity.
    + rewrite (IH _ (buf ++ [x])), (IH _ ([] ++ [x])).
      simpl. rewrite <- !app_assoc. reflexivity.
Qed.

Lemma write_attachment_buf buf a :
  write_attachment buf a = buf ++ write_attachment [] a.
Proof.
  unfold write_attachment, WriteString, Write.
  destruct (Inline a); simpl.
  - rewrite <- !app_assoc. reflexivity.
  - rewrite write_base64_buf. symmetry. rewrite write_base64_buf.
    rewrite <- !app_assoc. reflexivity.
Qed.

Lemma fold_write_attachment visit : forall buf,
  fold_left (fun buf kv => write_attachment buf (snd kv)) visit buf =
  buf ++ concat (map (fun kv : string * Attachment => write_attachment [] (snd kv)) visit).
Proof.
  induction visit as [|kv visit IH]; intros buf; simpl.
  - symmetry. apply app_nil_r.
  - rewrite IH, write_attachment_buf, <- app_assoc. reflexivity.
Qed.

(** [Bytes]: the header, the body part, the attachments. *)
Lemma Bytes_with_parts date visit m :
  Bytes_with date visit m =
  before_body date m
  ++ bytes_of ("Content-Type: " +:+ BodyContentType m +:+ "; charset=utf-8"
               +:+ CRLF +:+ CRLF)
  ++ bytes_of (Body m) ++ bytes_of CRLF
  ++ after_body visit m.
Proof.
  unfold Bytes_with, before_body, after_body, header_fields, WriteString.
  rewrite fold_write_attachment.
  destruct (0 <? size (entries m))%nat, (0 <? length (Cc m))%nat,
    (0 <? String.length (ReplyTo m))%nat;
    repeat rewrite bytes_of_app; repeat rewrite <- app_assoc;
    simpl; rewrite ?app_nil_r; reflexivity.
Qed.


Lemma base64_Encode_length : forall n src,
  length src <= n ->
  length (base64_Encode src) = base64_EncodedLen (length src).
Proof.
  induction n as [|n IH]; intros src Hn.
  - destruct src; [reflexivity|simpl in Hn; lia].
  - destruct src as [|s0 [|s1 [|s2 rest]]]; try reflexivity.
    cbn [base64_Encode length]. rewrite IH by (simpl in Hn; lia).
    unfold base64_EncodedLen.
    replace (S (S (S (length rest))) + 2) with ((length rest + 2) + 1 * 3) by lia.
    rewrite Nat.div_add by lia. lia.
Qed.

(** [Encode] fills the [EncodedLen] bytes of its destination. *)
Lemma base64_Encode_EncodedLen src :
  length (base64_Encode src) = base64_EncodedLen (length src).
Proof. apply (base64_Encode_length (length src)). reflexivity. Qed.

(* ===================================================================== *)
(** ** The base64 text in lines of 76 characters *)
(* ===================================================================== *)

Local Ltac zmod := Z.div_mod_to_equations; lia.

(** No CRLF is written inside a stretch that does not reach a 76th
    character. *)
Lemma write_base64_inside l rest : forall i buf,
  (0 <= i)%Z -> (i mod 76 + Z.of_nat (length l) < 76)%Z ->
  write_base64 (l ++ rest) i buf =
  write_base64 rest (i + Z.of_nat (length l)) (buf ++ l).
Proof.
  induction l as [|x l IH]; intros i buf Hi Hlen.
  - simpl. rewrite Z.add_0_r, app_nil_r. reflexivity.
  - cbn [app write_base64 length] in *.
    assert (Hne : ((i + 1) mod 76 =? 0)%Z = false) by (apply Z.eqb_neq; zmod).
    rewrite Hne. unfold WriteByte.
    rewrite IH by zmod.
    rewrite <- app_assoc. f_equal. lia.
Qed.

(** A full line is followed by a CRLF. *)
Lemma write_base64_line l rest i buf :
  length l = 76 -> (0 <= i)%Z -> (i mod 76 = 0)%Z ->
  write_base64 (l ++ rest) i buf =
  write_base64 rest (i + 76) (buf ++ l ++ bytes_of CRLF).
Proof.
  intros Hlen Hi Hmod.
  rewrite <- (take_drop 75 l), <- app_assoc.
  assert (Htake : length (take 75 l) = 75) by (rewrite length_take; lia).
  assert (Hdrop : length (drop 75 l) = 1) by (rewrite length_drop; lia).
  destruct (drop 75 l) as [|x [|y tl]]; try discriminate.
  rewrite write_base64_inside by (rewrite ?Htake; zmod).
  rewrite Htake. cbn [app write_base64].
  assert (Heq : ((i + Z.of_nat 75 + 1) mod 76 =? 0)%Z = true)
    by (apply Z.eqb_eq; zmod).
  rewrite Heq. unfold WriteByte, WriteString.
  rewrite <- !app_assoc. f_equal. lia.
Qed.

Lemma write_base64_lines n : forall b i buf,
  (0 <= i)%Z -> (i mod 76 = 0)%Z -> length b / 76 = n ->
  write_base64 b i buf =
  buf ++ concat (map (fun line => line ++ bytes_of CRLF) (reshape (replicate n 76) b))
      ++ drop (76 * n) b.
Proof.
  induction n as [|n IH]; intros b i buf Hi Hmod Hn.
  - assert (Hlen : length b < 76).
    { destruct (Nat.lt_ge_cases (length b) 76) as [|Hge]; [assumption|].
      apply (Nat.Div0.div_le_mono _ _ 76) in Hge.
      rewrite Nat.div_same in Hge by lia. lia. }
    rewrite <- (app_nil_r b) at 1.
    rewrite write_base64_inside by zmod. reflexivity.
  - assert (Hlen : 76 <= length b).
    { destruct (Nat.lt_ge_cases (length b) 76) as [Hlt|]; [|assumption].
      rewrite Nat.div_small in Hn by assumption. discriminate. }
    assert (Hn' : length (drop 76 b) / 76 = n).
    { rewrite length_drop.
      replace (length b) with ((length b - 76) + 1 * 76) in Hn by lia.
      rewrite Nat.div_add in Hn by lia. lia. }
    rewrite <- (take_drop 76 b) at 1.
    rewrite write_base64_line by (rewrite ?length_take; lia || assumption).
    rewrite (IH (drop 76 b)) by (assumption || zmod).
    cbn [replicate reshape map concat].
    rewrite drop_drop. rewrite <- !app_assoc.
    replace (76 + 76 * n) with (76 * S n) by lia. reflexivity.
Qed.

(** The loop writes the text with a CRLF after every 76th character. *)
Lemma write_base64_wrap76 b : write_base64 b 0 [] = wrap76 b.
Proof.
  unfold wrap76, full_lines, last_line.
  rewrite (write_base64_lines (length b / 76)) by (reflexivity || lia).
  reflexivity.
Qed.

Lemma lines_cover n : forall b : list byte,
  length b / 76 = n ->
  concat (reshape (replicate n 76) b) ++ drop (76 * n) b = b
  /\ Forall (fun line => length line = 76) (reshape (replicate n 76) b)
  /\ length (drop (76 * n) b) < 76.
Proof.
  induction n as [|n IH]; intros b Hn.
  - assert (Hlen : length b < 76).
    { destruct (Nat.lt_ge_cases (length b) 76) as [|Hge]; [assumption|].
      apply (Nat.Div0.div_le_mono _ _ 76) in Hge.
      rewrite Nat.div_same in Hge by lia. lia. }
    simpl. repeat split; [constructor | assumption].
  - assert (Hlen : 76 <= length b).
    { destruct (Nat.lt_ge_cases (length b) 76) as [Hlt|]; [|assumption].
      rewrite Nat.div_small in Hn by assumption. discriminate. }
    assert (Hn' : length (drop 76 b) / 76 = n).
    { rewrite length_drop.
      replace (length b) with ((length b - 76) + 1 * 76) in Hn by lia.
      rewrite Nat.div_add in Hn by lia. lia. }
    destruct (IH (drop 76 b) Hn') as (Hcat & Hall & Hlast).
    rewrite drop_drop in Hcat, Hlast.
    replace (76 + 76 * n) with (76 * S n) in Hcat, Hlast by lia.
    cbn [replicate reshape concat]. repeat split.
    + rewrite <- app_assoc, Hcat. apply take_drop.
    + constructor; [rewrite length_take; lia | assumption].
    + assumption.
Qed.

(* ===================================================================== *)
(** ** Serialization: body part and attachments *)
(* ===================================================================== *)

(** What the loop body writes for one attachment. *)
Lemma write_attachment_parts buf a :
  write_attachment buf a =
  buf ++ bytes_of (CRLF +:+ CRLF +:+ "--" +:+ boundary +:+ CRLF)
  ++ (if Inline a then inline_part a else base64_part a)
  ++ bytes_of (CRLF +:+ "--" +:+ boundary).
Proof.
  unfold write_attachment, inline_part, base64_part, WriteString, Write.
  destruct (Inline a).
  - repeat rewrite bytes_of_app. repeat rewrite <- app_assoc. reflexivity.
  - rewrite write_base64_buf, write_base64_wrap76.
    repeat rewrite bytes_of_app. repeat rewrite <- app_assoc. reflexivity.
Qed.

Lemma visit_entries (m : Message) visit k a :
  visit ≡ₚ map_to_list (entries m) ->
  entries m !! k = Some a -> (k, a) ∈ visit.
Proof.
  intros Hperm Hk. rewrite Hperm. apply elem_of_map_to_list. exact Hk.
Qed.

Lemma example_message_size : 0 < size (entries example_message).
Proof.
  apply Nat.ltb_lt. vm_compute. reflexivity.
Qed.

Lemma Bytes_with_map_to_list date m :
  Bytes date m (Bytes_with date (map_to_list (entries m)) m).
Proof. exists (map_to_list (entries m)). split; reflexivity. Qed.

(** C2. With at least one attachment the message is framed as
    multipart/mixed with the boundary f46d043c813270fc6b04c2d223da, and
    the data of every attachment that is not inline is written as its
    base64 text cut into lines: every full line has 76 characters and is
    followed by CRLF, and fewer than 76 characters remain after them. *)
Theorem Bytes_multipart_boundary_and_base64_lines :
  forall date m out,
    0 < size (entries m) ->
    Bytes date m out ->
    exists visit,
      visit ≡ₚ map_to_list (entries m)
      /\ out =
         bytes_of (header_fields date m)
         ++ bytes_of ("Content-Type: multipart/mixed; boundary=f46d043c813270fc6b04c2d223da"
                      +:+ CRLF +:+ "--f46d043c813270fc6b04c2d223da" +:+ CRLF)
         ++ bytes_of ("Content-Type: " +:+ BodyContentType m +:+ "; charset=utf-8"
                      +:+ CRLF +:+ CRLF +:+ Body m +:+ CRLF)
         ++ concat (map (fun kv => write_attachment [] (snd kv)) visit)
         ++ bytes_of "--"
      /\ forall k a,
           entries m !! k = Some a -> Inline a = false ->
           let text := base64_Encode (Data a) in
           (k, a) ∈ visit
           /\ write_attachment [] a =
              bytes_of (CRLF +:+ CRLF +:+ "--f46d043c813270fc6b04c2d223da" +:+ CRLF
                        +:+ "Content-Type: application/octet-stream" +:+ CRLF
                        +:+ "Content-Transfer-Encoding: base64" +:+ CRLF
                        +:+ "Content-Disposition: attachment; filename="
                        +:+ DQUOTE +:+ Filename a +:+ DQUOTE +:+ CRLF +:+ CRLF)
              ++ concat (map (fun line => line ++ bytes_of CRLF) (full_lines text))
              ++ last_line text
              ++ bytes_of (CRLF +:+ "--f46d043c813270fc6b04c2d223da")
           /\ concat (full_lines text) ++ last_line text = text
           /\ Forall (fun line => length line = 76) (full_lines text)
           /\ length (last_line text) < 76.
Proof.
  intros date m out Hsize (visit & Hperm & ->).
  exists visit. split; [exact Hperm|]. split.
  - rewrite Bytes_with_parts. unfold before_body, after_body, multipart_open.
    apply Nat.ltb_lt in Hsize. rewrite Hsize.
    repeat rewrite bytes_of_app. repeat rewrite <- app_assoc. reflexivity.
  - intros k a Hk Hinline text. split; [eapply visit_entries; eassumption|].
    split.
    + rewrite write_attachment_parts, Hinline. unfold base64_part, wrap76.
      fold text. repeat rewrite bytes_of_app. repeat rewrite <- app_assoc.
      reflexivity.
    + apply (lines_cover (length text / 76)). reflexivity.
Qed.

Lemma Bytes_multipart_boundary_and_base64_lines_witness :
  0 < size (entries example_message)
  /\ Bytes "31 Oct 26 12:00 UTC" example_message
       (Bytes_with "31 Oct 26 12:00 UTC" (map_to_list (entries example_message))
          example_message)
  /\ exists visit, visit ≡ₚ map_to_list (entries example_message).
Proof.
  split; [apply example_message_size|].
  split; [apply Bytes_with_map_to_list|].
  destruct (Bytes_multipart_boundary_and_base64_lines
              "31 Oct 26 12:00 UTC" example_message _
              example_message_size
              (Bytes_with_map_to_list "31 Oct 26 12:00 UTC" example_message))
    as (visit & Hperm & _).
  exists visit. exact Hperm.
Defined.

(** C7. Every attachment of the message is written once, between the
    boundary lines, in one of two ways chosen by its [Inline] flag: inline,
    with Content-Disposition inline and its bytes as they are
    ([inline_part]); or as an attachment, with Content-Transfer-Encoding
    base64, Content-Disposition attachment and its bytes in base64
    ([base64_part]). *)
Theorem every_attachment_inline_or_base64 :
  forall date m out,
    Bytes date m out ->
    (exists visit,
       visit ≡ₚ map_to_list (entries m)
       /\ out =
          before_body date m
          ++ bytes_of ("Content-Type: " +:+ BodyContentType m +:+ "; charset=utf-8"
                       +:+ CRLF +:+ CRLF +:+ Body m +:+ CRLF)
          ++ (if (0 <? size (entries m))%nat
              then concat (map (fun kv => write_attachment [] (snd kv)) visit)
                   ++ bytes_of "--"
              else []))
    /\ forall buf a,
         write_attachment buf a =
         buf ++ bytes_of (CRLF +:+ CRLF +:+ "--" +:+ boundary +:+ CRLF)
         ++ (if Inline a then inline_part a else base64_part a)
         ++ bytes_of (CRLF +:+ "--" +:+ boundary).
Proof.
  intros date m out (visit & Hperm & ->). split.
  - exists visit. split; [exact Hperm|].
    rewrite Bytes_with_parts. unfold after_body.
    repeat rewrite bytes_of_app. repeat rewrite <- app_assoc. reflexivity.
  - apply write_attachment_parts.
Qed.

Lemma every_attachment_inline_or_base64_witness :
  Bytes "31 Oct 26 12:00 UTC" example_message
    (Bytes_with "31 Oct 26 12:00 UTC" (map_to_list (entries example_message))
       example_message)
  /\ write_attachment []
       {| Filename := "mail.eml"; Data := bytes_of "Subject: x"; Inline := true |} =
     bytes_of (CRLF +:+ CRLF +:+ "--" +:+ boundary +:+ CRLF)
     ++ inline_part
          {| Filename := "mail.eml"; Data := bytes_of "Subject: x"; Inline := true |}
     ++ bytes_of (CRLF +:+ "--" +:+ boundary).
Proof.
  split; [apply Bytes_with_map_to_list|].
  exact (proj2 (every_attachment_inline_or_base64
                  "31 Oct 26 12:00 UTC" example_message _
                  (Bytes_with_map_to_list "31 Oct 26 12:00 UTC" example_message))
           []
           {| Filename := "mail.eml"; Data := bytes_of "Subject: x"; Inline := true |}).
Defined.

(** C6. A message with the body and the body content type that
    [NewMessage] gives it is written with the body part
    Content-Type text/plain, charset utf-8, an empty line, the body and
    CRLF; with those of [NewHTMLMessage], the same with text/html. *)
Theorem body_part_text_plain_or_html :
  forall date visit subject body m,
    (same_body m (NewMessage subject body) ->
     Bytes_with date visit m =
     before_body date m
     ++ bytes_of ("Content-Type: text/plain; charset=utf-8" +:+ CRLF +:+ CRLF)
     ++ bytes_of body ++ bytes_of CRLF
     ++ after_body visit m)
    /\ (same_body m (NewHTMLMessage subject body) ->
        Bytes_with date visit m =
        before_body date m
        ++ bytes_of ("Content-Type: text/html; charset=utf-8" +:+ CRLF +:+ CRLF)
        ++ bytes_of body ++ bytes_of CRLF
        ++ after_body visit m).
Proof.
  intros date visit subject body m.
  split; intros [Hbody Htype]; rewrite Bytes_with_parts, Hbody, Htype; reflexivity.
Qed.

Lemma body_part_text_plain_or_html_witness :
  Bytes_with "31 Oct 26 12:00 UTC" [] (NewMessage "Hi" "Hello") =
  before_body "31 Oct 26 12:00 UTC" (NewMessage "Hi" "Hello")
  ++ bytes_of ("Content-Type: text/plain; charset=utf-8" +:+ CRLF +:+ CRLF)
  ++ bytes_of "Hello" ++ bytes_of CRLF
  ++ after_body [] (NewMessage "Hi" "Hello").
Proof.
  exact (proj1 (body_part_text_plain_or_html
                  "31 Oct 26 12:00 UTC" [] "Hi" "Hello" (NewMessage "Hi" "Hello"))
           (conj eq_refl eq_refl)).
Defined.

Lemma Permutation_short {A} (l l' : list A) :
  length l <= 1 -> l' ≡ₚ l -> l' = l.
Proof.
  intros Hlen Hperm. destruct l as [|x [|y l]].
  - apply Permutation_nil_r. exact Hperm.
  - apply Permutation_singleton_r. exact Hperm.
  - cbn [length] in Hlen. lia.
Qed.

(** C9, as the code has it. Two messages that differ only in Bcc are
    written alike for every time and every order in which the attachments
    are visited, so at one time they have the same possible results; with
    at most one attachment there is one possible result, and the two
    outputs are equal. *)
Theorem Bytes_independent_of_Bcc :
  forall date m1 m2,
    differ_only_in_Bcc m1 m2 ->
    (forall visit, Bytes_with date visit m1 = Bytes_with date visit m2)
    /\ (forall out, Bytes date m1 out <-> Bytes date m2 out)
    /\ (size (entries m1) <= 1 ->
        forall out1 out2,
          Bytes date m1 out1 -> Bytes date m2 out2 -> out1 = out2).
Proof.
  intros date m1 m2 (HFrom & HTo & HCc & HReply & HSubject & HBody & HType & HAtt).
  assert (Heq : forall visit, Bytes_with date visit m1 = Bytes_with date visit m2).
  { intros visit. unfold Bytes_with, entries.
    rewrite HFrom, HTo, HCc, HReply, HSubject, HBody, HType, HAtt. reflexivity. }
  split; [exact Heq|]. split.
  - intros out. unfold Bytes, entries. rewrite HAtt.
    split; intros (visit & Hperm & ->); exists visit; split; auto.
  - intros Hsize out1 out2 (visit1 & Hperm1 & ->) (visit2 & Hperm2 & ->).
    assert (Hentries : entries m2 = entries m1) by (unfold entries; rewrite HAtt; reflexivity).
    rewrite Hentries in Hperm2.
    rewrite <- length_map_to_list in Hsize.
    rewrite (Permutation_short _ _ Hsize Hperm1), (Permutation_short _ _ Hsize Hperm2).
    apply Heq.
Qed.

(** C9, as stated, fails: at one time, two messages that differ only in
    Bcc, with two attachments, are written differently when the map is
    visited in different orders. *)
Lemma Bytes_differs_with_visiting_order :
  differ_only_in_Bcc example_message
    (set_Bcc example_message ["d@example.org"; "e@example.org"])
  /\ Bytes "31 Oct 26 12:00 UTC" example_message
       (Bytes_with "31 Oct 26 12:00 UTC" (map_to_list (entries example_message))
          example_message)
  /\ Bytes "31 Oct 26 12:00 UTC"
       (set_Bcc example_message ["d@example.org"; "e@example.org"])
       (Bytes_with "31 Oct 26 12:00 UTC"
          (reverse (map_to_list (entries example_message)))
          (set_Bcc example_message ["d@example.org"; "e@example.org"]))
  /\ Bytes_with "31 Oct 26 12:00 UTC" (map_to_list (entries example_message))
       example_message <>
     Bytes_with "31 Oct 26 12:00 UTC"
       (reverse (map_to_list (entries example_message)))
       (set_Bcc example_message ["d@example.org"; "e@example.org"]).
Proof.
  split; [repeat split|]. split; [apply Bytes_with_map_to_list|]. split.
  - eexists. split; [|reflexivity]. apply reverse_Permutation.
  - intros H. vm_compute in H. discriminate H.
Qed.

Lemma Bytes_independent_of_Bcc_witness :
  differ_only_in_Bcc example_message (set_Bcc example_message ["d@example.org"; "e@example.org"])
  /\ Bytes_with "31 Oct 26 12:00 UTC" (map_to_list example_attachments)
       example_message =
     Bytes_with "31 Oct 26 12:00 UTC" (map_to_list example_attachments)
       (set_Bcc example_message ["d@example.org"; "e@example.org"]).
Proof.
  assert (H : differ_only_in_Bcc example_message
                (set_Bcc example_message ["d@example.org"; "e@example.org"])).
  { repeat split. }
  split; [exact H|].
  exact (proj1 (Bytes_independent_of_Bcc "31 Oct 26 12:00 UTC" _ _ H)
           (map_to_list example_attachments)).
Defined.

(* ===================================================================== *)
(** ** The LOGIN authenticator *)
(* ===================================================================== *)

Lemma login_advertised_spec mechanisms :
  login_advertised mechanisms = true <-> "LOGIN" ∈ mechanisms.
Proof.
  induction mechanisms as [|mechanism rest IH]; simpl.
  - split; [discriminate|]. intros H. inversion H.
  - destruct (String.eqb_spec mechanism "LOGIN") as [->|Hne].
    + split; [intros _; apply list_elem_of_here|reflexivity].
    + rewrite IH. split.
      * intros H. apply list_elem_of_further. exact H.
      * intros H. inversion H; subst; [contradiction|assumption].
Qed.

Lemma login_not_advertised mechanisms :
  "LOGIN" ∉ mechanisms -> login_advertised mechanisms = false.
Proof.
  intros Hnot. destruct (login_advertised mechanisms) eqn:E; [|reflexivity].
  apply login_advertised_spec in E. contradiction.
Qed.

(** C3. On a connection without TLS, [Start] returns the error
    LoginAuth: Unencrypted connection, with no mechanism and no response,
    when LOGIN is not among the advertised mechanisms; when LOGIN is
    advertised the check passes and the result is that of the host name
    check. *)
Theorem Start_unencrypted_connection :
  forall a server,
    TLS server = false ->
    ("LOGIN" ∉ Auth server ->
     loginAuth_Start a server =
     (EmptyString, None, Some "LoginAuth: Unencrypted connection"))
    /\ ("LOGIN" ∈ Auth server ->
        loginAuth_Start a server =
        if String.eqb (Name server) (host a)
        then ("LOGIN", None, None)
        else (EmptyString, None, Some "LoginAuth: Wrong host name")).
Proof.
  intros a server HTLS. unfold loginAuth_Start. rewrite HTLS. split.
  - intros Hnot. rewrite (login_not_advertised _ Hnot). reflexivity.
  - intros Hin. apply login_advertised_spec in Hin. rewrite Hin. simpl.
    destruct (String.eqb (Name server) (host a)); reflexivity.
Qed.

Lemma Start_unencrypted_connection_witness :
  TLS {| Name := "mail.example.org"; TLS := false; Auth := ["PLAIN"; "CRAM-MD5"] |} = false
  /\ loginAuth_Start {| username := "u"; password := "p"; host := "mail.example.org" |}
       {| Name := "mail.example.org"; TLS := false; Auth := ["PLAIN"; "CRAM-MD5"] |} =
     (EmptyString, None, Some "LoginAuth: Unencrypted connection").
Proof.
  split; [reflexivity|].
  apply (proj1 (Start_unencrypted_connection
           {| username := "u"; password := "p"; host := "mail.example.org" |}
           {| Name := "mail.example.org"; TLS := false; Auth := ["PLAIN"; "CRAM-MD5"] |}
           eq_refl)).
  intros Hin.
  apply elem_of_cons in Hin as [Hin|Hin]; [discriminate|].
  apply elem_of_cons in Hin as [Hin|Hin]; [discriminate|].
  inversion Hin.
Defined.

(** C4. When the encryption check passes, [Start] returns the error
    LoginAuth: Wrong host name if the server's name differs from the host
    of the authenticator, and otherwise the mechanism LOGIN with a nil
    response and no error. *)
Theorem Start_host_name :
  forall a server,
    passes_encryption_check server ->
    (Name server <> host a ->
     loginAuth_Start a server =
     (EmptyString, None, Some "LoginAuth: Wrong host name"))
    /\ (Name server = host a ->
        loginAuth_Start a server = ("LOGIN", None, None)).
Proof.
  intros a server Hpass. unfold loginAuth_Start.
  assert (Hcheck : negb (TLS server) && negb (login_advertised (Auth server)) = false).
  { destruct Hpass as [HTLS|Hin].
    - rewrite HTLS. reflexivity.
    - apply login_advertised_spec in Hin. rewrite Hin. apply andb_false_r. }
  rewrite Hcheck. split.
  - intros Hne. apply String.eqb_neq in Hne. rewrite Hne. reflexivity.
  - intros Heq. apply String.eqb_eq in Heq. rewrite Heq. reflexivity.
Qed.

Lemma Start_host_name_witness :
  passes_encryption_check {| Name := "mail.example.org"; TLS := true; Auth := [] |}
  /\ loginAuth_Start {| username := "u"; password := "p"; host := "mail.example.org" |}
       {| Name := "mail.example.org"; TLS := true; Auth := [] |} =
     ("LOGIN", None, None)
  /\ loginAuth_Start {| username := "u"; password := "p"; host := "other.example.org" |}
       {| Name := "mail.example.org"; TLS := true; Auth := [] |} =
     (EmptyString, None, Some "LoginAuth: Wrong host name").
Proof.
  assert (H : passes_encryption_check
                {| Name := "mail.example.org"; TLS := true; Auth := [] |})
    by (left; reflexivity).
  split; [exact H|]. split.
  - apply (proj2 (Start_host_name
             {| username := "u"; password := "p"; host := "mail.example.org" |} _ H)).
    reflexivity.
  - apply (proj1 (Start_host_name
             {| username := "u"; password := "p"; host := "other.example.org" |} _ H)).
    discriminate.
Defined.

(** C5, as the code has it. When [more] is false [Next] returns nil and
    no error. When [more] is true it takes the challenge without one final
    colon and in lower case: for username it returns the user name, for
    password the password, and for anything else an error. The prompts
    Username: and Password: are read as username and password. *)
Theorem Next_challenge_response :
  forall a fromServer,
    loginAuth_Next a fromServer false = (None, None)
    /\ (command_of fromServer = "username" ->
        loginAuth_Next a fromServer true = (Some (bytes_of (username a)), None))
    /\ (command_of fromServer = "password" ->
        loginAuth_Next a fromServer true = (Some (bytes_of (password a)), None))
    /\ (command_of fromServer <> "username" ->
        command_of fromServer <> "password" ->
        loginAuth_Next a fromServer true =
        (None,
         Some ("LoginAuth: unexpected server challenge: " +:+ command_of fromServer)))
    /\ command_of (bytes_of "Username:") = "username"
    /\ command_of (bytes_of "Password:") = "password".
Proof.
  intros a fromServer. unfold loginAuth_Next. simpl.
  split; [reflexivity|]. split; [|split; [|split]].
  - intros ->. reflexivity.
  - intros ->. reflexivity.
  - intros Hu Hp. apply String.eqb_neq in Hu, Hp. rewrite Hu, Hp. reflexivity.
  - split; vm_compute; reflexivity.
Qed.

Lemma Next_challenge_response_witness :
  command_of (bytes_of "PASSWORD:") = "password"
  /\ loginAuth_Next {| username := "u"; password := "p"; host := "h" |}
       (bytes_of "PASSWORD:") true =
     (Some (bytes_of "p"), None).
Proof.
  assert (H : command_of (bytes_of "PASSWORD:") = "password")
    by (vm_compute; reflexivity).
  split; [exact H|].
  exact (proj1 (proj2 (proj2
           (Next_challenge_response {| username := "u"; password := "p"; host := "h" |}
              (bytes_of "PASSWORD:"))))
           H).
Defined.

(** C5, as stated, fails: a challenge that is neither of the two prompts
    is answered with the user name and no error. *)
Lemma Next_other_challenge_answered :
  bytes_of "username" <> bytes_of "Username:"
  /\ bytes_of "username" <> bytes_of "Password:"
  /\ loginAuth_Next {| username := "u"; password := "p"; host := "h" |}
       (bytes_of "username") true =
     (Some (bytes_of "u"), None).
Proof.
  split; [discriminate|]. split; [discriminate|]. vm_compute. reflexivity.
Qed.

(* ===================================================================== *)
(** ** Attachments are filed under their file name *)
(* ===================================================================== *)

Lemma split_index_no_separator p : forall n j,
  n <= length p -> split_index p n <= j < n ->
  exists c, p !! j = Some c /\ IsPathSeparator c = false.
Proof.
  induction n as [|n IH]; intros j Hn Hj; simpl in Hj; [lia|].
  destruct (lookup_lt_is_Some_2 p n ltac:(lia)) as [c Hc].
  rewrite Hc in Hj. destruct (IsPathSeparator c) eqn:Hsep; [lia|].
  destruct (decide (j = n)) as [->|Hne].
  - exists c. split; assumption.
  - apply IH; lia.
Qed.

Lemma split_index_after_separator p : forall n,
  n <= length p ->
  split_index p n = 0
  \/ exists i, split_index p n = S i /\ p !! i = Some "/"%char.
Proof.
  induction n as [|n IH]; intros Hn; simpl; [left; reflexivity|].
  destruct (lookup_lt_is_Some_2 p n ltac:(lia)) as [c Hc].
  rewrite Hc. destruct (IsPathSeparator c) eqn:Hsep.
  - right. exists n. split; [reflexivity|].
    apply Ascii.eqb_eq in Hsep. subst c. exact Hc.
  - apply IH. lia.
Qed.

Lemma string_of_list_ascii_app l1 l2 :
  string_of_list_ascii (l1 ++ l2) =
  string_of_list_ascii l1 +:+ string_of_list_ascii l2.
Proof.
  induction l1 as [|c l1 IH]; [reflexivity|].
  simpl. rewrite IH. reflexivity.
Qed.

(** [filepath.Split] gives the final component of the path. *)
Lemma filepath_Split_final_component path :
  final_component path (snd (filepath_Split path)).
Proof.
  unfold filepath_Split, final_component. cbn [snd].
  set (p := list_ascii_of_string path).
  set (i1 := split_index p (length p)).
  exists (string_of_list_ascii (take i1 p)). split; [|split].
  - rewrite <- string_of_list_ascii_app, take_drop.
    symmetry. apply string_of_list_ascii_of_string.
  - intros c Hc. rewrite list_ascii_of_string_of_list_ascii in Hc.
    apply list_elem_of_lookup in Hc as [j Hj].
    rewrite lookup_drop in Hj.
    assert (Hlt : i1 + j < length p) by (eapply lookup_lt_Some; eassumption).
    destruct (split_index_no_separator p (length p) (i1 + j)) as (c' & Hc' & Hsep);
      [lia | fold i1; lia |].
    rewrite Hj in Hc'. injection Hc' as ->. exact Hsep.
  - destruct (split_index_after_separator p (length p)) as [H0|(i & Hi & Hsep)];
      [lia | | ]; fold i1 in H0 || fold i1 in Hi.
    + left. rewrite H0. reflexivity.
    + right. exists (string_of_list_ascii (take i p)).
      rewrite Hi, (take_S_r _ _ _ Hsep), string_of_list_ascii_app. reflexivity.
Qed.

Lemma attach_Returns ReadFile m file inline m' :
  attach ReadFile m file inline = Returns (m', None) ->
  exists data a,
    ReadFile file = inl data
    /\ Attachments m = Some a
    /\ m' = set_Attachments m
              (<[snd (filepath_Split file) :=
                   {| Filename := snd (filepath_Split file); Data := data;
                      Inline := inline |}]> a).
Proof.
  unfold attach. destruct (ReadFile file) as [data|err]; [|discriminate].
  destruct (filepath_Split file) as [dir filename]. cbn [snd].
  destruct (Attachments m) as [a|]; [|discriminate].
  intros [= <-]. exists data, a. repeat split.
Qed.

(** The invariant: the map is made, and every entry is under the file
    name its value carries, which is the final component of some path. *)
Lemma composed_invariant m :
  composed m ->
  exists a,
    Attachments m = Some a
    /\ forall k v,
         a !! k = Some v ->
         Filename v = k /\ exists file, final_component file k.
Proof.
  assert (Hattach : forall ReadFile m file inline m',
    (exists a, Attachments m = Some a
       /\ forall k v, a !! k = Some v ->
            Filename v = k /\ exists file, final_component file k) ->
    attach ReadFile m file inline = Returns (m', None) ->
    exists a, Attachments m' = Some a
       /\ forall k v, a !! k = Some v ->
            Filename v = k /\ exists file, final_component file k).
  { intros ReadFile m0 file inline m' (a & Ha & Hinv) Hret.
    apply attach_Returns in Hret as (data & a' & _ & Ha' & ->).
    rewrite Ha in Ha'. injection Ha' as <-.
    eexists. split; [reflexivity|].
    intros k v Hk. apply lookup_insert_Some in Hk as [[<- <-]|[_ Hk]].
    - split; [reflexivity|]. exists file. apply filepath_Split_final_component.
    - apply Hinv. exact Hk. }
  induction 1 as [subject body|subject body|ReadFile m file m' _ IH Hret
                 |ReadFile m file m' _ IH Hret|m m' _ IH Hsame].
  - exists ∅. split; [reflexivity|]. intros k v Hk. rewrite lookup_empty in Hk.
    discriminate.
  - exists ∅. split; [reflexivity|]. intros k v Hk. rewrite lookup_empty in Hk.
    discriminate.
  - exact (Hattach _ _ _ _ _ IH Hret).
  - exact (Hattach _ _ _ _ _ IH Hret).
  - rewrite Hsame. exact IH.
Qed.

(** C10. For a message made by [NewMessage] or [NewHTMLMessage] and
    changed by successful [Attach] and [Inline] calls: every entry of the
    map is under the [Filename] of its value, the final component of a
    path; a further call never panics, and when it succeeds it files what
    it read under the final component of its path; and after two calls
    for paths with the same final component the map is the one before
    them with the entry of the later call alone under that name. *)
Theorem Attachments_filed_under_file_name :
  forall m,
    composed m ->
    (exists a,
       Attachments m = Some a
       /\ forall k v,
            a !! k = Some v ->
            Filename v = k /\ exists file, final_component file k)
    /\ (forall ReadFile file inline,
          exists result, attach ReadFile m file inline = Returns result)
    /\ (forall ReadFile file inline m',
          attach ReadFile m file inline = Returns (m', None) ->
          let name := snd (filepath_Split file) in
          final_component file name
          /\ exists data,
               ReadFile file = inl data
               /\ entries m' !! name =
                  Some {| Filename := name; Data := data; Inline := inline |})
    /\ (forall ReadFile1 ReadFile2 file1 file2 inline1 inline2 m1 m2,
          snd (filepath_Split file1) = snd (filepath_Split file2) ->
          attach ReadFile1 m file1 inline1 = Returns (m1, None) ->
          attach ReadFile2 m1 file2 inline2 = Returns (m2, None) ->
          let name := snd (filepath_Split file2) in
          exists data2,
            ReadFile2 file2 = inl data2
            /\ entries m2 =
               <[name := {| Filename := name; Data := data2; Inline := inline2 |}]>
                 (entries m)).
Proof.
  intros m Hm.
  destruct (composed_invariant m Hm) as (a & Ha & Hinv).
  split; [exists a; split; assumption|]. split; [|split].
  - intros ReadFile file inline. unfold attach.
    destruct (ReadFile file) as [data|err]; [|eexists; reflexivity].
    destruct (filepath_Split file) as [dir filename]. rewrite Ha.
    eexists; reflexivity.
  - intros ReadFile file inline m' Hret name.
    split; [apply filepath_Split_final_component|].
    apply attach_Returns in Hret as (data & a' & Hread & _ & ->).
    exists data. split; [exact Hread|].
    unfold entries. cbn [Attachments set_Attachments default].
    apply lookup_insert_eq.
  - intros ReadFile1 ReadFile2 file1 file2 inline1 inline2 m1 m2 Hname H1 H2 name.
    apply attach_Returns in H1 as (data1 & a1 & _ & Ha1 & ->).
    apply attach_Returns in H2 as (data2 & a2 & Hread2 & Ha2 & ->).
    cbn [Attachments set_Attachments] in Ha2. injection Ha2 as <-.
    rewrite Ha in Ha1. injection Ha1 as <-.
    exists data2. split; [exact Hread2|].
    unfold entries. cbn [Attachments set_Attachments default].
    rewrite Ha. cbn [default]. subst name. unfold id.
    unfold filepath_Split in Hname |- *. cbn [snd] in Hname |- *.
    rewrite Hname. apply insert_insert_eq.
Qed.

Lemma Attachments_filed_under_file_name_witness :
  composed (NewMessage "Hi" "Hello")
  /\ exists data2,
       example_files "b/notes.txt" = inl data2
       /\ entries
            (set_Attachments
               (set_Attachments (NewMessage "Hi" "Hello")
                  (<["notes.txt" := {| Filename := "notes.txt";
                                       Data := bytes_of "first"; Inline := false |}]> ∅))
               (<["notes.txt" := {| Filename := "notes.txt";
                                    Data := bytes_of "second"; Inline := true |}]>
                  (<["notes.txt" := {| Filename := "notes.txt";
                                       Data := bytes_of "first"; Inline := false |}]> ∅))) =
          <["notes.txt" := {| Filename := "notes.txt"; Data := data2; Inline := true |}]>
            (entries (NewMessage "Hi" "Hello")).
Proof.
  split; [constructor|].
  exact (proj2 (proj2 (proj2
           (Attachments_filed_under_file_name (NewMessage "Hi" "Hello")
              (composed_NewMessage "Hi" "Hello"))))
           example_files example_files "a/notes.txt" "b/notes.txt" false true
           _ _ eq_refl eq_refl eq_refl).
Defined.

(* ===================================================================== *)
(** ** Further properties of [Send] *)
(* ===================================================================== *)

(** The calls of [Send] when Dial succeeds: a prefix of the steps, then
    the deferred close. *)
Lemma Send_trace w date visit addr auth st m skipverify :
  respond w [] (EDial addr) = None ->
  let steps := steps_in_order w date visit addr auth st m skipverify in
  let run := Send w date visit addr auth st m skipverify in
  exists n,
    fst run = take n steps ++ [EClose]
    /\ (forall i e, S i < n -> steps !! i = Some e ->
        respond w (take i steps) e = None)
    /\ match snd run with
       | None =>
           n = length steps
           /\ forall i e, steps !! i = Some e -> respond w (take i steps) e = None
       | Some err =>
           exists i e,
             n = S i /\ steps !! i = Some e
             /\ respond w (take i steps) e = Some err
       end.
Proof.
  intros HDial steps run. subst run. rewrite Send_perform, HDial. fold steps.
  destruct (perform_spec w steps []) as (n & Htrace & Hbefore & Hlast).
  exists n. destruct (perform w [] steps) as [h r]. cbn [fst snd app] in *.
  subst h. repeat split; assumption.
Qed.

(** The steps are: what precedes the recipients, the recipients, and the
    four steps that transfer the message. *)
Lemma steps_in_order_split w date visit addr auth st m skipverify :
  exists pre,
    steps_in_order w date visit addr auth st m skipverify =
      pre ++ map ERcpt (recipients st m)
          ++ [EData; EWrite (Bytes_with date visit (after_Tolist st m));
              EWriterClose; EQuit]
    /\ rcpts pre = []
    /\ EData ∉ pre.
Proof.
  unfold steps_in_order.
  set (host := SplitHostPort w addr).
  set (starttls := if Extension w [EDial addr; EHello host] "STARTTLS"
                   then [EStartTLS host skipverify] else []).
  set (authenticate := match auth with
                       | Some a =>
                           if Extension w ([EDial addr; EHello host] ++ starttls) "AUTH"
                           then [EAuth a] else []
                       | None => []
                       end).
  exists ([EDial addr; EHello host] ++ starttls ++ authenticate ++ [EMail (From m)]).
  split; [rewrite <- !app_assoc; reflexivity|].
  assert (Hs : starttls = [EStartTLS host skipverify] \/ starttls = [])
    by (subst starttls; destruct (Extension w _ "STARTTLS"); auto).
  assert (Ha : (exists a, authenticate = [EAuth a]) \/ authenticate = []).
  { subst authenticate. destruct auth as [a|]; [|auto].
    destruct (Extension w _ "AUTH"); eauto. }
  destruct Hs as [-> | ->], Ha as [[a ->] | ->]; split; try reflexivity;
    intros Hin; repeat (apply elem_of_cons in Hin as [Hin|Hin]; [discriminate|]);
    inversion Hin.
Qed.

(** Every step is built from the arguments of [Send]. *)
Lemma steps_in_order_elem w date visit addr auth st m skipverify e :
  e ∈ steps_in_order w date visit addr auth st m skipverify ->
  match e with
  | EDial a => a = addr
  | EHello localName => localName = SplitHostPort w addr
  | EStartTLS ServerName InsecureSkipVerify =>
      ServerName = SplitHostPort w addr /\ InsecureSkipVerify = skipverify
      /\ Extension w [EDial addr; EHello (SplitHostPort w addr)] "STARTTLS" = true
  | EAuth a => auth = Some a
  | EMail from => from = From m
  | ERcpt to => to ∈ To (load st m) ++ Cc (load st m) ++ Bcc (load st m)
  | EWrite p => p = Bytes_with date visit (after_Tolist st m)
  | EClose => False
  | EData | EWriterClose | EQuit => True
  end.
Proof.
  unfold steps_in_order.
  set (host := SplitHostPort w addr).
  intros Hin.
  apply elem_of_cons in Hin as [->|Hin]; [reflexivity|].
  apply elem_of_cons in Hin as [->|Hin]; [reflexivity|].
  apply elem_of_app in Hin as [Hin|Hin].
  { destruct (Extension w [EDial addr; EHello host] "STARTTLS") eqn:Ext;
      [|inversion Hin].
    apply list_elem_of_singleton in Hin as ->. repeat split. }
  apply elem_of_app in Hin as [Hin|Hin].
  { destruct auth as [a|]; [|inversion Hin].
    destruct (Extension w _ "AUTH"); [|inversion Hin].
    apply list_elem_of_singleton in Hin as ->. reflexivity. }
  apply elem_of_cons in Hin as [->|Hin]; [reflexivity|].
  apply elem_of_app in Hin as [Hin|Hin].
  { apply list_elem_of_fmap in Hin as (to & -> & Hto).
    apply recipients_values. exact Hto. }
  repeat (apply elem_of_cons in Hin as [->|Hin]; [exact I || reflexivity|]).
  inversion Hin.
Qed.

Lemma Send_trace_elem w date visit addr auth st m skipverify e :
  e ∈ fst (Send w date visit addr auth st m skipverify) ->
  e ∈ steps_in_order w date visit addr auth st m skipverify \/ e = EClose.
Proof.
  destruct (respond w [] (EDial addr)) as [err|] eqn:HDial.
  - rewrite Send_perform, HDial. cbn [fst]. intros Hin.
    apply list_elem_of_singleton in Hin as ->. left. apply list_elem_of_here.
  - destruct (Send_trace w date visit addr auth st m skipverify HDial)
      as (n & -> & _). intros Hin.
    apply elem_of_app in Hin as [Hin|Hin].
    + left. apply elem_of_take in Hin as (i & Hi & _).
      eapply list_elem_of_lookup_2. exact Hi.
    + right. apply list_elem_of_singleton in Hin. exact Hin.
Qed.

(** Close a goal whose hypothesis [H] puts an event into a list of events
    of other kinds. *)
Ltac absurd_event H :=
  solve
    [ repeat first
        [ apply elem_of_cons in H as [H|H]; [discriminate H|]
        | apply elem_of_app in H as [H|H]
        | apply list_elem_of_fmap in H as (? & H & _); discriminate H ];
      inversion H ].

(** X1. Every call [Send] makes is built from its arguments: it dials
    [addr], greets and configures TLS with the host of [addr] and the
    given [skipverify], authenticates only with the given [auth], names
    [m.From] as the sender and only recipients of [m] (elements of To, Cc
    and Bcc as they read when [Send] is called), and writes [m.Bytes()],
    of the message as it reads when the write is made. *)
Theorem Send_calls_built_from_arguments :
  forall w date visit addr auth st m skipverify e,
    e ∈ fst (Send w date visit addr auth st m skipverify) ->
    match e with
    | EDial a => a = addr
    | EHello localName => localName = SplitHostPort w addr
    | EStartTLS ServerName InsecureSkipVerify =>
        ServerName = SplitHostPort w addr /\ InsecureSkipVerify = skipverify
        /\ Extension w [EDial addr; EHello (SplitHostPort w addr)] "STARTTLS" = true
    | EAuth a => auth = Some a
    | EMail from => from = From m
    | ERcpt to => to ∈ To (load st m) ++ Cc (load st m) ++ Bcc (load st m)
    | EWrite p => p = Bytes_with date visit (after_Tolist st m)
    | EData | EWriterClose | EQuit | EClose => True
    end.
Proof.
  intros w date visit addr auth st m skipverify e Hin.
  apply Send_trace_elem in Hin as [Hin| ->]; [|exact I].
  apply steps_in_order_elem in Hin. destruct e; try exact I; exact Hin.
Qed.

Lemma Send_calls_built_from_arguments_witness :
  EDial "mail.example.org:25"
    ∈ fst (Send example_world "31 Oct 26 12:00 UTC" [] "mail.example.org:25"
             None example_store (unshared (NewMessage "Hi" "Hello")) false)
  /\ "mail.example.org:25" = "mail.example.org:25".
Proof.
  assert (H : EDial "mail.example.org:25"
                ∈ fst (Send example_world "31 Oct 26 12:00 UTC" []
                         "mail.example.org:25" None example_store (unshared (NewMessage "Hi" "Hello")) false))
    by (vm_compute; apply list_elem_of_here).
  split; [exact H|].
  exact (Send_calls_built_from_arguments example_world "31 Oct 26 12:00 UTC" []
           "mail.example.org:25" None example_store (unshared (NewMessage "Hi" "Hello")) false _ H).
Defined.

(** X2. When Dial fails [Send] makes no other call, not even Close. When
    Dial succeeds the calls start with Dial and Hello and end with Close,
    and Close is called once, whichever step fails. *)
Theorem Send_closes_connection_once :
  forall w date visit addr auth st m skipverify,
    match respond w [] (EDial addr) with
    | Some err =>
        Send w date visit addr auth st m skipverify = ([EDial addr], Some err)
    | None =>
        exists h,
          fst (Send w date visit addr auth st m skipverify) =
            EDial addr :: EHello (SplitHostPort w addr) :: h ++ [EClose]
          /\ EClose ∉ h
    end.
Proof.
  intros w date visit addr auth st m skipverify.
  destruct (respond w [] (EDial addr)) as [err|] eqn:HDial.
  { rewrite Send_perform, HDial. reflexivity. }
  destruct (Send_trace w date visit addr auth st m skipverify HDial)
    as (n & Htrace & _ & Hlast).
  rewrite Htrace. clear Htrace.
  assert (Hno : forall k,
    EClose ∉ take k (steps_in_order w date visit addr auth st m skipverify)).
  { intros k Hin. apply elem_of_take in Hin as (i & Hi & _).
    apply list_elem_of_lookup_2 in Hi. apply steps_in_order_elem in Hi. exact Hi. }
  assert (Hn : 2 <= n).
  { destruct (snd (Send w date visit addr auth st m skipverify)) as [err|].
    - destruct Hlast as ([|i] & e & -> & Hi & Herr); [|lia].
      injection Hi as <-. rewrite take_0 in Herr. congruence.
    - destruct Hlast as [-> _]. unfold steps_in_order. cbn [app length]. lia. }
  destruct n as [|[|k]]; [lia|lia|].
  specialize (Hno (S (S k))). revert Hno.
  unfold steps_in_order. cbn [app firstn]. intros Hno.
  eexists. split; [reflexivity|].
  intros Hin. apply Hno. do 2 apply list_elem_of_further. exact Hin.
Qed.

(** X3. Data is sent only after every recipient: when the Data call is
    among the calls of [Send], the Rcpt calls made are those for the
    elements of [m.Tolist()], in order, and each of them returned no error:
    for the element at index [i], the calls before its Rcpt call hold the
    Rcpt calls of the [i] elements before it, and the answer to its Rcpt
    call after them is no error. *)
Theorem Send_data_after_all_recipients :
  forall w date visit addr auth st m skipverify,
    let run := Send w date visit addr auth st m skipverify in
    EData ∈ fst run ->
    rcpts (fst run) = recipients st m
    /\ forall i to,
         recipients st m !! i = Some to ->
         exists h,
           (h ++ [ERcpt to]) `prefix_of` fst run
           /\ rcpts h = take i (recipients st m)
           /\ respond w h (ERcpt to) = None.
Proof.
  intros w date visit addr auth st m skipverify run HData. subst run.
  destruct (respond w [] (EDial addr)) as [err|] eqn:HDial.
  { rewrite Send_perform, HDial in HData. cbn [fst] in HData. absurd_event HData. }
  destruct (Send_trace w date visit addr auth st m skipverify HDial)
    as (n & Htrace & Hbefore & _).
  rewrite Htrace in *. clear Htrace.
  destruct (steps_in_order_split w date visit addr auth st m skipverify)
    as (pre & Hsteps & Hpre & HnoData).
  rewrite Hsteps in *. clear Hsteps.
  set (tail := [EData; EWrite (Bytes_with date visit (after_Tolist st m));
                EWriterClose; EQuit]) in *.
  set (l := recipients st m) in *.
  set (before := pre ++ map ERcpt l).
  assert (Hassoc : pre ++ map ERcpt l ++ tail = before ++ tail)
    by apply app_assoc.
  rewrite Hassoc in *. clear Hassoc.
  assert (Hlen : length before < n).
  { destruct (Nat.lt_ge_cases (length before) n) as [|Hge]; [assumption|].
    exfalso. apply elem_of_app in HData as [HData|HData]; [|absurd_event HData].
    rewrite take_app_le in HData by exact Hge.
    apply elem_of_take in HData as (i & Hi & _).
    apply list_elem_of_lookup_2 in Hi. subst before.
    apply elem_of_app in Hi as [Hi|Hi]; [apply HnoData; exact Hi|absurd_event Hi]. }
  split.
  - rewrite take_app_ge by lia.
    rewrite !rcpts_app. subst before. rewrite rcpts_app, Hpre, rcpts_map_ERcpt.
    assert (Htail : rcpts (take (n - length (pre ++ map ERcpt l)) tail) = []).
    { subst tail.
      destruct (n - length (pre ++ map ERcpt l)) as [|[|[|[|k]]]];
        cbn [firstn]; rewrite ?take_nil; reflexivity. }
    rewrite Htail. cbn [rcpts omap app]. rewrite !app_nil_r. reflexivity.
  - intros j to Hj.
    assert (Hjlen : j < length l) by (eapply lookup_lt_Some; exact Hj).
    assert (Hlook : (before ++ tail) !! (length pre + j) = Some (ERcpt to)).
    { subst before. rewrite <- app_assoc, lookup_app_r by lia.
      replace (length pre + j - length pre) with j by lia.
      rewrite lookup_app_l by (rewrite length_map; exact Hjlen).
      rewrite list_lookup_fmap, Hj. reflexivity. }
    assert (Hj' : length pre + j < length before).
    { subst before. rewrite length_app, length_map. lia. }
    exists (take (length pre + j) (before ++ tail)). split; [|split].
    + apply prefix_app_r.
      rewrite <- (take_S_r _ _ _ Hlook).
      replace (S (length pre + j)) with (S (length pre + j) `min` n) by lia.
      rewrite <- take_take. apply prefix_take.
    + rewrite take_app_le by lia. subst before.
      rewrite take_app_ge by lia. rewrite rcpts_app, Hpre. cbn [app].
      replace (length pre + j - length pre) with j by lia.
      rewrite <- fmap_take. apply rcpts_map_ERcpt.
    + apply Hbefore; [lia|exact Hlook].
Qed.

Lemma Send_data_after_all_recipients_witness :
  EData ∈ fst (Send example_world "31 Oct 26 12:00 UTC" [] "mail.example.org:25"
                 None example_store example_message_in_memory false)
  /\ rcpts (fst (Send example_world "31 Oct 26 12:00 UTC" [] "mail.example.org:25"
                   None example_store example_message_in_memory false)) =
     recipients example_store example_message_in_memory
  /\ recipients example_store example_message_in_memory =
     ["b@example.org"; "c@example.org"].
Proof.
  assert (H : EData ∈ fst (Send example_world "31 Oct 26 12:00 UTC" []
                             "mail.example.org:25" None example_store
                             example_message_in_memory false)).
  { vm_compute. repeat first [apply list_elem_of_here | apply list_elem_of_further]. }
  split; [exact H|]. split; [|reflexivity].
  exact (proj1 (Send_data_after_all_recipients example_world "31 Oct 26 12:00 UTC" []
                  "mail.example.org:25" None example_store
                  example_message_in_memory false H)).
Defined.

(** X4. Credentials go out only after the TLS upgrade the server offers:
    when STARTTLS is advertised after Hello and [Send] makes the Auth call,
    the StartTLS call (for the host of [addr], with the given [skipverify])
    was made before it and returned no error. *)
Theorem Send_StartTLS_before_Auth :
  forall w date visit addr auth st m skipverify a,
    let host := SplitHostPort w addr in
    EAuth a ∈ fst (Send w date visit addr auth st m skipverify) ->
    Extension w [EDial addr; EHello host] "STARTTLS" = true ->
    respond w [EDial addr; EHello host] (EStartTLS host skipverify) = None
    /\ exists h,
         fst (Send w date visit addr auth st m skipverify) =
         EDial addr :: EHello host :: EStartTLS host skipverify :: EAuth a :: h.
Proof.
  intros w date visit addr auth st m skipverify a host HAuth Hext.
  assert (Hauth : auth = Some a).
  { apply Send_trace_elem in HAuth as [HAuth|HAuth]; [|discriminate].
    apply steps_in_order_elem in HAuth. exact HAuth. }
  subst auth.
  destruct (respond w [] (EDial addr)) as [err|] eqn:HDial.
  { rewrite Send_perform, HDial in HAuth. cbn [fst] in HAuth. absurd_event HAuth. }
  destruct (Send_trace w date visit addr (Some a) st m skipverify HDial)
    as (n & Htrace & Hbefore & _).
  rewrite Htrace in *. clear Htrace. revert HAuth Hbefore.
  unfold steps_in_order. fold host. rewrite Hext.
  destruct (Extension w ([EDial addr; EHello host] ++ [EStartTLS host skipverify]) "AUTH");
    cbn [app]; intros HAuth Hbefore.
  - destruct n as [|[|[|[|k]]]]; cbn [firstn app] in HAuth |- *;
      try (absurd_event HAuth).
    split; [|eexists; reflexivity].
    apply (Hbefore 2); [lia|reflexivity].
  - exfalso. apply elem_of_app in HAuth as [HAuth|HAuth]; [|absurd_event HAuth].
    apply elem_of_take in HAuth as (i & Hi & _).
    apply list_elem_of_lookup_2 in Hi. absurd_event Hi.
Qed.

Lemma Send_StartTLS_before_Auth_witness :
  EAuth (LoginAuth "u" "p" "mail.example.org")
    ∈ fst (Send example_world "31 Oct 26 12:00 UTC" [] "mail.example.org:25"
             (Some (LoginAuth "u" "p" "mail.example.org")) example_store
             (unshared (NewMessage "Hi" "Hello")) false)
  /\ Extension example_world
       [EDial "mail.example.org:25";
        EHello (SplitHostPort example_world "mail.example.org:25")] "STARTTLS" = true
  /\ respond example_world
       [EDial "mail.example.org:25";
        EHello (SplitHostPort example_world "mail.example.org:25")]
       (EStartTLS (SplitHostPort example_world "mail.example.org:25") false) = None.
Proof.
  assert (H : EAuth (LoginAuth "u" "p" "mail.example.org")
                ∈ fst (Send example_world "31 Oct 26 12:00 UTC" []
                         "mail.example.org:25"
                         (Some (LoginAuth "u" "p" "mail.example.org"))
                         example_store (unshared (NewMessage "Hi" "Hello")) false)).
  { rewrite Send_perform. cbn.
    do 3 apply list_elem_of_further. apply list_elem_of_here. }
  split; [exact H|]. split; [reflexivity|].
  exact (proj1 (Send_StartTLS_before_Auth example_world "31 Oct 26 12:00 UTC" []
                  "mail.example.org:25" (Some (LoginAuth "u" "p" "mail.example.org"))
                  example_store (unshared (NewMessage "Hi" "Hello")) false _ H eq_refl)).
Defined.

(** X5. [Send] returns no error exactly when every step of
    [steps_in_order] returns none, and then its calls are all the steps
    followed by Close. *)
Theorem Send_succeeds_iff_all_steps_succeed :
  forall w date visit addr auth st m skipverify,
    let steps := steps_in_order w date visit addr auth st m skipverify in
    let run := Send w date visit addr auth st m skipverify in
    (snd run = None <->
     forall i e, steps !! i = Some e -> respond w (take i steps) e = None)
    /\ (snd run = None -> fst run = steps ++ [EClose]).
Proof.
  intros w date visit addr auth st m skipverify steps run. subst run.
  destruct (respond w [] (EDial addr)) as [err|] eqn:HDial.
  - rewrite Send_perform, HDial. cbn [fst snd]. split; [split|]; try discriminate.
    intros Hall. specialize (Hall 0 (EDial addr) eq_refl).
    rewrite take_0 in Hall. congruence.
  - destruct (Send_trace w date visit addr auth st m skipverify HDial)
      as (n & Htrace & _ & Hlast). fold steps in Htrace, Hlast.
    destruct (snd (Send w date visit addr auth st m skipverify)) as [err|].
    + split; [split|]; try discriminate.
      intros Hall. destruct Hlast as (i & e & _ & Hi & Herr).
      rewrite (Hall i e Hi) in Herr. discriminate.
    + destruct Hlast as [-> Hall]. split; [split; [intros _; exact Hall|reflexivity]|].
      intros _. rewrite Htrace, firstn_all. reflexivity.
Qed.

(* ===================================================================== *)
(** ** Further properties of the LOGIN authenticator *)
(* ===================================================================== *)

Lemma String_length_app s t :
  String.length (s +:+ t) = String.length s + String.length t.
Proof.
  induction s as [|c s IH]; [reflexivity|].
  change (String c s +:+ t) with (String c (s +:+ t)). simpl. rewrite IH. reflexivity.
Qed.

Lemma substring_all t : String.substring 0 (String.length t) t = t.
Proof. induction t as [|c t IH]; simpl; [reflexivity|]. rewrite IH. reflexivity. Qed.

Lemma substring_app_l s t : String.substring 0 (String.length s) (s +:+ t) = s.
Proof.
  induction s as [|c s IH].
  - destruct t; reflexivity.
  - change (String c s +:+ t) with (String c (s +:+ t)). simpl. rewrite IH. reflexivity.
Qed.

Lemma substring_app_r s t :
  String.substring (String.length s) (String.length t) (s +:+ t) = t.
Proof.
  induction s as [|c s IH].
  - apply substring_all.
  - change (String c s +:+ t) with (String c (s +:+ t)). simpl. exact IH.
Qed.

(** [TrimSuffix] takes a suffix off again. *)
Lemma strings_TrimSuffix_app s suffix :
  strings_TrimSuffix (s +:+ suffix) suffix = s.
Proof.
  unfold strings_TrimSuffix, strings_HasSuffix.
  rewrite String_length_app.
  replace (String.length s + String.length suffix - String.length suffix)
    with (String.length s) by lia.
  rewrite substring_app_r, String.eqb_refl, substring_app_l.
  replace (String.length suffix <=? String.length s + String.length suffix)%nat
    with true by (symmetry; apply Nat.leb_le; lia).
  reflexivity.
Qed.

(** A string that reads username or password in lower case does not end
    with a colon. *)
Lemma keyword_without_colon s :
  strings_ToLower s = "username" \/ strings_ToLower s = "password" ->
  strings_TrimSuffix s ":" = s.
Proof.
  intros H.
  assert (Hlast : exists c1 c2 c3 c4 c5 c6 c7 c8,
            s = String c1 (String c2 (String c3 (String c4 (String c5
                  (String c6 (String c7 (String c8 EmptyString)))))))
            /\ (lower_byte c8 = "e"%char \/ lower_byte c8 = "d"%char)).
  { destruct s as [|c1 [|c2 [|c3 [|c4 [|c5 [|c6 [|c7 [|c8 [|c9 s]]]]]]]]];
      try (destruct H as [H|H]; discriminate H).
    exists c1, c2, c3, c4, c5, c6, c7, c8. split; [reflexivity|].
    destruct H as [H|H]; simpl in H; injection H; auto. }
  destruct Hlast as (c1 & c2 & c3 & c4 & c5 & c6 & c7 & c8 & -> & Hc8).
  unfold strings_TrimSuffix, strings_HasSuffix. simpl.
  destruct (Ascii.eqb_spec c8 ":") as [->|Hne]; [|reflexivity].
  destruct Hc8 as [Hc8|Hc8]; vm_compute in Hc8; discriminate Hc8.
Qed.

Lemma command_of_bytes_of s :
  command_of (bytes_of s) = strings_ToLower (strings_TrimSuffix s ":").
Proof.
  unfold command_of, string_of, bytes_of.
  rewrite string_of_list_byte_of_string. reflexivity.
Qed.

(** X6. [Start] never sends an initial response. It returns no error
    exactly when the connection is encrypted or LOGIN is advertised, and
    the server's name is the host of the authenticator; the mechanism is
    LOGIN then, and empty with an error. *)
Theorem Start_succeeds_iff :
  forall a server,
    let r := loginAuth_Start a server in
    snd (fst r) = None
    /\ (snd r = None <->
        (TLS server = true \/ "LOGIN" ∈ Auth server) /\ Name server = host a)
    /\ match snd r with
       | None => fst (fst r) = "LOGIN"
       | Some _ => fst (fst r) = EmptyString
       end.
Proof.
  intros a server r. subst r. unfold loginAuth_Start.
  destruct (TLS server) eqn:HTLS; cbn [negb andb].
  - destruct (String.eqb_spec (Name server) (host a)) as [Heq|Hne]; cbn [negb fst snd].
    + repeat split; auto.
    + repeat split; try discriminate. intros [_ Heq]. contradiction.
  - destruct (login_advertised (Auth server)) eqn:Hadv; cbn [negb fst snd].
    + apply login_advertised_spec in Hadv.
      destruct (String.eqb_spec (Name server) (host a)) as [Heq|Hne]; cbn [negb fst snd].
      * repeat split; auto.
      * repeat split; try discriminate. intros [_ Heq]. contradiction.
    + repeat split; try discriminate.
      intros [[Htrue|Hin] _]; [discriminate|].
      apply login_advertised_spec in Hin. congruence.
Qed.

(** X7. [Next] reads its challenge without regard to letter case and to
    one final colon: a challenge that is username in lower case, or that
    followed by a colon, is answered with the user name, and likewise
    password with the password. *)
Theorem Next_ignores_case_and_final_colon :
  forall a s,
    (strings_ToLower s = "username" ->
     loginAuth_Next a (bytes_of s) true = (Some (bytes_of (username a)), None)
     /\ loginAuth_Next a (bytes_of (s +:+ ":")) true =
        (Some (bytes_of (username a)), None))
    /\ (strings_ToLower s = "password" ->
        loginAuth_Next a (bytes_of s) true = (Some (bytes_of (password a)), None)
        /\ loginAuth_Next a (bytes_of (s +:+ ":")) true =
           (Some (bytes_of (password a)), None)).
Proof.
  intros a s. unfold loginAuth_Next. cbn [negb].
  rewrite !command_of_bytes_of, strings_TrimSuffix_app.
  split; intros H; rewrite keyword_without_colon by auto; rewrite H; split; reflexivity.
Qed.

Lemma Next_ignores_case_and_final_colon_witness :
  strings_ToLower "UserName" = "username"
  /\ loginAuth_Next {| username := "u"; password := "p"; host := "h" |}
       (bytes_of ("UserName" +:+ ":")) true =
     (Some (bytes_of "u"), None).
Proof.
  assert (H : strings_ToLower "UserName" = "username") by (vm_compute; reflexivity).
  split; [exact H|].
  exact (proj2 (proj1 (Next_ignores_case_and_final_colon
                         {| username := "u"; password := "p"; host := "h" |}
                         "UserName") H)).
Defined.

(** X8. [Next] returns a response or an error, never both, and neither
    once the server has no more to ask. A response is the user name, for
    the challenge username, or the password, for the challenge password;
    an error means the challenge is neither. *)
Theorem Next_answers_only_with_credentials :
  forall a fromServer more,
    match loginAuth_Next a fromServer more with
    | (Some r, None) =>
        more = true
        /\ (command_of fromServer = "username" /\ r = bytes_of (username a)
            \/ command_of fromServer = "password" /\ r = bytes_of (password a))
    | (None, Some err) =>
        more = true
        /\ command_of fromServer <> "username"
        /\ command_of fromServer <> "password"
    | (None, None) => more = false
    | (Some _, Some _) => False
    end.
Proof.
  intros a fromServer more. unfold loginAuth_Next.
  destruct more; cbn [negb]; [|reflexivity].
  destruct (String.eqb_spec (command_of fromServer) "username") as [Hu|Hu].
  - split; [reflexivity|]. left. split; [exact Hu|reflexivity].
  - destruct (String.eqb_spec (command_of fromServer) "password") as [Hp|Hp].
    + split; [reflexivity|]. right. split; [exact Hp|reflexivity].
    + repeat split; assumption.
Qed.

(** X9. The dialogue through the [smtp.Auth] interface: on an encrypted
    connection to the host given to [LoginAuth], [Start] announces LOGIN,
    the prompts Username: and Password: are answered with the bytes of
    the strings given to [LoginAuth], and the last call, with [more]
    false, returns nil. *)
Theorem LoginAuth_dialogue :
  forall user pass hostname server,
    TLS server = true ->
    Name server = hostname ->
    let auth := LoginAuth user pass hostname in
    Start auth server = ("LOGIN", None, None)
    /\ option_map string_of (fst (Next auth (bytes_of "Username:") true)) = Some user
    /\ snd (Next auth (bytes_of "Username:") true) = None
    /\ option_map string_of (fst (Next auth (bytes_of "Password:") true)) = Some pass
    /\ snd (Next auth (bytes_of "Password:") true) = None
    /\ forall fromServer, Next auth fromServer false = (None, None).
Proof.
  intros user pass hostname server HTLS HName auth. subst auth.
  unfold LoginAuth. cbn [Start Next].
  split.
  - unfold loginAuth_Start. rewrite HTLS, HName. cbn [negb andb host].
    rewrite String.eqb_refl. reflexivity.
  - unfold loginAuth_Next. cbn [negb username password].
    change (command_of (bytes_of "Username:")) with "username".
    change (command_of (bytes_of "Password:")) with "password".
    cbn [String.eqb Ascii.eqb Bool.eqb fst snd option_map].
    unfold string_of, bytes_of. rewrite !string_of_list_byte_of_string.
    repeat split.
Qed.

Lemma LoginAuth_dialogue_witness :
  TLS {| Name := "mail.example.org"; TLS := true; Auth := ["PLAIN"] |} = true
  /\ Start (LoginAuth "u" "p" "mail.example.org")
       {| Name := "mail.example.org"; TLS := true; Auth := ["PLAIN"] |} =
     ("LOGIN", None, None).
Proof.
  split; [reflexivity|].
  exact (proj1 (LoginAuth_dialogue "u" "p" "mail.example.org"
                  {| Name := "mail.example.org"; TLS := true; Auth := ["PLAIN"] |}
                  eq_refl eq_refl)).
Defined.

(* ===================================================================== *)
(** ** Further properties of [attach] *)
(* ===================================================================== *)

Lemma attach_success ReadFile m file inline data a :
  ReadFile file = inl data ->
  Attachments m = Some a ->
  attach ReadFile m file inline =
  Returns
    (set_Attachments m
       (<[snd (filepath_Split file) :=
            {| Filename := snd (filepath_Split file); Data := data;
               Inline := inline |}]> a),
     None).
Proof.
  intros Hread Ha. unfold attach. rewrite Hread, Ha.
  destruct (filepath_Split file) as [dir filename]. reflexivity.
Qed.

(** X10. The ways [attach] fails. It panics exactly when the file can be
    read and the map of the message is nil. It returns an error exactly
    when the file cannot be read; the error is that of [ReadFile] and the
    message is left as it was, nil map or not. *)
Theorem attach_failure_modes :
  forall ReadFile m file inline,
    (attach ReadFile m file inline = Panics <->
     Attachments m = None /\ exists data, ReadFile file = inl data)
    /\ (forall m' err,
          attach ReadFile m file inline = Returns (m', Some err) <->
          ReadFile file = inr err /\ m' = m).
Proof.
  intros ReadFile m file inline. unfold attach.
  destruct (ReadFile file) as [data|err0]; destruct (filepath_Split file) as [dir name].
  - destruct (Attachments m) as [a|]; split.
    + split; [discriminate|]. intros [H _]. discriminate H.
    + intros m' err. split; [discriminate|]. intros [H _]. discriminate H.
    + split; [intros _; eauto|reflexivity].
    + intros m' err. split; [discriminate|]. intros [H _]. discriminate H.
  - split.
    + split; [discriminate|]. intros [_ [data H]]. discriminate H.
    + intros m' err. split.
      * intros [= <- <-]. split; reflexivity.
      * intros [[= <-] ->]. reflexivity.
Qed.

(** X11. A successful [attach] changes one entry of the map and nothing
    else: the other fields and the entries under other names stay, and
    the map grows by one entry, or by none when the name was taken. *)
Theorem attach_changes_one_entry :
  forall ReadFile m file inline m',
    attach ReadFile m file inline = Returns (m', None) ->
    let name := snd (filepath_Split file) in
    (From m' = From m /\ To m' = To m /\ Cc m' = Cc m /\ Bcc m' = Bcc m
     /\ ReplyTo m' = ReplyTo m /\ Subject m' = Subject m /\ Body m' = Body m
     /\ BodyContentType m' = BodyContentType m)
    /\ (forall k, k <> name -> entries m' !! k = entries m !! k)
    /\ size (entries m') =
       match entries m !! name with
       | Some _ => size (entries m)
       | None => S (size (entries m))
       end.
Proof.
  intros ReadFile m file inline m' Hret name.
  apply attach_Returns in Hret as (data & a & _ & Ha & ->). fold name.
  unfold entries. cbn [set_Attachments From To Cc Bcc ReplyTo Subject Body
                       BodyContentType Attachments default].
  rewrite Ha. cbn [default]. unfold id.
  split; [repeat split|]. split.
  - intros k Hk. apply lookup_insert_ne. congruence.
  - rewrite map_size_insert. destruct (a !! name); reflexivity.
Qed.

Lemma attach_changes_one_entry_witness :
  attach example_files (NewMessage "Hi" "Hello") "a/notes.txt" false =
    Returns
      (set_Attachments (NewMessage "Hi" "Hello")
         (<["notes.txt" := {| Filename := "notes.txt"; Data := bytes_of "first";
                              Inline := false |}]> ∅),
       None)
  /\ size (entries
             (set_Attachments (NewMessage "Hi" "Hello")
                (<["notes.txt" := {| Filename := "notes.txt";
                                     Data := bytes_of "first";
                                     Inline := false |}]> ∅))) = 1.
Proof.
  split; [reflexivity|].
  exact (proj2 (proj2 (attach_changes_one_entry example_files
                         (NewMessage "Hi" "Hello") "a/notes.txt" false _ eq_refl))).
Defined.

(** X12. Attaching two files with different names gives the same message
    in either order. *)
Theorem attach_commutes :
  forall ReadFile m file1 file2 inline1 inline2 m1 m12,
    snd (filepath_Split file1) <> snd (filepath_Split file2) ->
    attach ReadFile m file1 inline1 = Returns (m1, None) ->
    attach ReadFile m1 file2 inline2 = Returns (m12, None) ->
    exists m2,
      attach ReadFile m file2 inline2 = Returns (m2, None)
      /\ attach ReadFile m2 file1 inline1 = Returns (m12, None).
Proof.
  intros ReadFile m file1 file2 inline1 inline2 m1 m12 Hne H1 H2.
  apply attach_Returns in H1 as (data1 & a & Hread1 & Ha & ->).
  apply attach_Returns in H2 as (data2 & a1 & Hread2 & Ha1 & ->).
  cbn [Attachments set_Attachments] in Ha1. injection Ha1 as <-.
  eexists. split; [apply attach_success; eassumption|].
  erewrite attach_success; [|exact Hread1|reflexivity].
  unfold set_Attachments. cbn [From To Cc Bcc ReplyTo Subject Body BodyContentType].
  rewrite insert_insert_ne by exact Hne. reflexivity.
Qed.

Lemma attach_commutes_witness :
  snd (filepath_Split "a/notes.txt") <> snd (filepath_Split "b/mail.eml")
  /\ exists m2,
       attach (fun _ => inl (bytes_of "x")) (NewMessage "Hi" "Hello") "b/mail.eml" true =
       Returns (m2, None).
Proof.
  assert (H : snd (filepath_Split "a/notes.txt") <> snd (filepath_Split "b/mail.eml"))
    by (vm_compute; discriminate).
  split; [exact H|].
  destruct (attach_commutes (fun _ => inl (bytes_of "x")) (NewMessage "Hi" "Hello")
              "a/notes.txt" "b/mail.eml" false true _ _ H eq_refl eq_refl)
    as (m2 & Hm2 & _).
  exists m2. exact Hm2.
Defined.

(* ===================================================================== *)
(** ** Further properties of [Bytes] *)
(* ===================================================================== *)

(** X13. A message without attachments, nil map or empty, has one
    possible result: the header fields and the body part, with no
    multipart line and no boundary. *)
Theorem Bytes_without_attachments :
  forall date m out,
    entries m = ∅ ->
    (Bytes date m out <->
     out =
     bytes_of (header_fields date m)
     ++ bytes_of ("Content-Type: " +:+ BodyContentType m +:+ "; charset=utf-8"
                  +:+ CRLF +:+ CRLF +:+ Body m +:+ CRLF)).
Proof.
  intros date m out Hempty.
  assert (Hshape : forall visit,
    Bytes_with date visit m =
    bytes_of (header_fields date m)
    ++ bytes_of ("Content-Type: " +:+ BodyContentType m +:+ "; charset=utf-8"
                 +:+ CRLF +:+ CRLF +:+ Body m +:+ CRLF)).
  { intros visit. rewrite Bytes_with_parts. unfold before_body, after_body.
    rewrite Hempty, map_size_empty. cbn [Nat.ltb Nat.leb].
    repeat rewrite bytes_of_app. rewrite !app_nil_r, <- !app_assoc. reflexivity. }
  split.
  - intros (visit & _ & ->). apply Hshape.
  - intros ->. exists []. split; [|symmetry; apply Hshape].
    rewrite Hempty, map_to_list_empty. reflexivity.
Qed.

Lemma Bytes_without_attachments_witness :
  entries (NewHTMLMessage "Hi" "Hello") = ∅
  /\ Bytes "31 Oct 26 12:00 UTC" (NewHTMLMessage "Hi" "Hello")
       (bytes_of (header_fields "31 Oct 26 12:00 UTC" (NewHTMLMessage "Hi" "Hello"))
        ++ bytes_of ("Content-Type: " +:+ "text/html" +:+ "; charset=utf-8"
                     +:+ CRLF +:+ CRLF +:+ "Hello" +:+ CRLF)).
Proof.
  split; [reflexivity|].
  exact (proj2 (Bytes_without_attachments "31 Oct 26 12:00 UTC"
                  (NewHTMLMessage "Hi" "Hello") _ eq_refl) eq_refl).
Defined.

(** X14. A new message is written with empty From and To fields and
    without Cc and Reply-To fields: [NewMessage] sets the subject, the
    body and the content type only. *)
Theorem Bytes_of_NewMessage :
  forall date subject body out,
    Bytes date (NewMessage subject body) out <->
    out =
    bytes_of ("From: " +:+ CRLF
              +:+ "Date: " +:+ date +:+ CRLF
              +:+ "To: " +:+ CRLF
              +:+ "Subject: " +:+ subject +:+ CRLF
              +:+ "MIME-Version: 1.0" +:+ CRLF
              +:+ "Content-Type: text/plain; charset=utf-8" +:+ CRLF +:+ CRLF
              +:+ body +:+ CRLF).
Proof.
  intros date subject body out.
  assert (Hshape : forall visit,
    Bytes_with date visit (NewMessage subject body) =
    bytes_of ("From: " +:+ CRLF
              +:+ "Date: " +:+ date +:+ CRLF
              +:+ "To: " +:+ CRLF
              +:+ "Subject: " +:+ subject +:+ CRLF
              +:+ "MIME-Version: 1.0" +:+ CRLF
              +:+ "Content-Type: text/plain; charset=utf-8" +:+ CRLF +:+ CRLF
              +:+ body +:+ CRLF)).
  { intros visit. rewrite Bytes_with_parts.
    unfold before_body, after_body, header_fields.
    change (entries (NewMessage subject body)) with (∅ : gmap string Attachment).
    rewrite map_size_empty.
    cbn [NewMessage newMessage From To Cc ReplyTo Subject Body BodyContentType
         length String.length Nat.ltb Nat.leb strings_Join].
    repeat rewrite bytes_of_app. rewrite !app_nil_r, <- !app_assoc. reflexivity. }
  split.
  - intros (visit & _ & ->). apply Hshape.
  - intros ->. exists []. split; [|symmetry; apply Hshape].
    change (entries (NewMessage subject body)) with (∅ : gmap string Attachment).
    rewrite map_to_list_empty. reflexivity.
Qed.

(** X15. After the first attachment the result is fixed: the header
    fields, the multipart opening, the body part, and the one attachment
    between its boundary lines, inline or in base64 as the call asked. *)
Theorem Bytes_after_first_attach :
  forall date ReadFile m file inline m',
    Attachments m = Some ∅ ->
    attach ReadFile m file inline = Returns (m', None) ->
    exists data,
      ReadFile file = inl data
      /\ forall out,
           Bytes date m' out <->
           out =
           bytes_of (header_fields date m)
           ++ bytes_of multipart_open
           ++ bytes_of ("Content-Type: " +:+ BodyContentType m +:+ "; charset=utf-8"
                        +:+ CRLF +:+ CRLF +:+ Body m +:+ CRLF)
           ++ bytes_of (CRLF +:+ CRLF +:+ "--" +:+ boundary +:+ CRLF)
           ++ (let a := {| Filename := snd (filepath_Split file); Data := data;
                           Inline := inline |} in
               if inline then inline_part a else base64_part a)
           ++ bytes_of (CRLF +:+ "--" +:+ boundary +:+ "--").
Proof.
  intros date ReadFile m file inline m' Hnew Hret.
  apply attach_Returns in Hret as (data & a & Hread & Ha & ->).
  rewrite Hnew in Ha. injection Ha as <-.
  exists data. split; [exact Hread|].
  set (name := snd (filepath_Split file)).
  set (att := {| Filename := name; Data := data; Inline := inline |}).
  set (m' := set_Attachments m (<[name := att]> ∅)).
  assert (Hentries : entries m' = {[name := att]}).
  { unfold entries, m'. cbn [set_Attachments Attachments default].
    apply insert_empty. }
  assert (Hshape :
    Bytes_with date [(name, att)] m' =
    bytes_of (header_fields date m)
    ++ bytes_of multipart_open
    ++ bytes_of ("Content-Type: " +:+ BodyContentType m +:+ "; charset=utf-8"
                 +:+ CRLF +:+ CRLF +:+ Body m +:+ CRLF)
    ++ bytes_of (CRLF +:+ CRLF +:+ "--" +:+ boundary +:+ CRLF)
    ++ (if inline then inline_part att else base64_part att)
    ++ bytes_of (CRLF +:+ "--" +:+ boundary +:+ "--")).
  { rewrite Bytes_with_parts. unfold before_body, after_body.
    rewrite Hentries, map_size_singleton. cbn [Nat.ltb Nat.leb map concat snd].
    rewrite write_attachment_parts. cbn [Inline att].
    change (header_fields date m') with (header_fields date m).
    change (BodyContentType m') with (BodyContentType m).
    change (Body m') with (Body m).
    repeat rewrite bytes_of_app. rewrite !app_nil_r, <- !app_assoc. reflexivity. }
  intros out. split.
  - intros (visit & Hperm & ->).
    rewrite Hentries, map_to_list_singleton in Hperm.
    apply Permutation_singleton_r in Hperm as ->. exact Hshape.
  - intros ->. exists [(name, att)]. split; [|symmetry; exact Hshape].
    rewrite Hentries, map_to_list_singleton. reflexivity.
Qed.

Lemma Bytes_after_first_attach_witness :
  Attachments (NewMessage "Hi" "Hello") = Some ∅
  /\ attach example_files (NewMessage "Hi" "Hello") "a/notes.txt" false =
     Returns
       (set_Attachments (NewMessage "Hi" "Hello")
          (<["notes.txt" := {| Filename := "notes.txt"; Data := bytes_of "first";
                               Inline := false |}]> ∅),
        None)
  /\ exists data, example_files "a/notes.txt" = inl data.
Proof.
  split; [reflexivity|]. split; [reflexivity|].
  destruct (Bytes_after_first_attach "31 Oct 26 12:00 UTC" example_files
              (NewMessage "Hi" "Hello") "a/notes.txt" false _ eq_refl eq_refl)
    as (data & Hread & _).
  exists data. exact Hread.
Defined.

Lemma concat_map_length_Permutation {A B} (f : A -> list B) (l1 l2 : list A) :
  l1 ≡ₚ l2 -> length (concat (map f l1)) = length (concat (map f l2)).
Proof.
  induction 1 as [|x l1 l2 _ IH|x y l|l1 l2 l3 _ IH1 _ IH2]; cbn [map concat].
  - reflexivity.
  - rewrite !length_app, IH. reflexivity.
  - rewrite !length_app. lia.
  - congruence.
Qed.

(** X16. The order in which the attachments are visited does not change
    the size of the message: all possible results of [Bytes] at one time
    have the same length. *)
Theorem Bytes_length_independent_of_order :
  forall date m out1 out2,
    Bytes date m out1 -> Bytes date m out2 -> length out1 = length out2.
Proof.
  intros date m out1 out2 (visit1 & Hperm1 & ->) (visit2 & Hperm2 & ->).
  rewrite !Bytes_with_parts. unfold after_body.
  rewrite !length_app. do 4 f_equal.
  destruct (0 <? size (entries m))%nat; [|reflexivity].
  rewrite !length_app. f_equal.
  apply concat_map_length_Permutation. rewrite Hperm1, Hperm2. reflexivity.
Qed.

Lemma Bytes_length_independent_of_order_witness :
  Bytes "31 Oct 26 12:00 UTC" example_message
    (Bytes_with "31 Oct 26 12:00 UTC" (map_to_list (entries example_message))
       example_message)
  /\ Bytes "31 Oct 26 12:00 UTC" example_message
       (Bytes_with "31 Oct 26 12:00 UTC"
          (reverse (map_to_list (entries example_message))) example_message)
  /\ length (Bytes_with "31 Oct 26 12:00 UTC" (map_to_list (entries example_message))
               example_message) =
     length (Bytes_with "31 Oct 26 12:00 UTC"
               (reverse (map_to_list (entries example_message))) example_message).
Proof.
  assert (H1 : Bytes "31 Oct 26 12:00 UTC" example_message
                 (Bytes_with "31 Oct 26 12:00 UTC"
                    (map_to_list (entries example_message)) example_message))
    by apply Bytes_with_map_to_list.
  assert (H2 : Bytes "31 Oct 26 12:00 UTC" example_message
                 (Bytes_with "31 Oct 26 12:00 UTC"
                    (reverse (map_to_list (entries example_message))) example_message)).
  { eexists. split; [|reflexivity]. apply reverse_Permutation. }
  split; [exact H1|]. split; [exact H2|].
  exact (Bytes_length_independent_of_order _ _ _ _ H1 H2).
Defined.

Lemma lines_length (ls : list (list byte)) :
  Forall (fun line => length line = 76) ls ->
  length (concat ls) = 76 * length ls
  /\ length (concat (map (fun line => line ++ bytes_of CRLF) ls)) = 78 * length ls.
Proof.
  induction 1 as [|line ls Hline _ [IH1 IH2]]; cbn [map concat length].
  - split; reflexivity.
  - rewrite !length_app, IH1, IH2, Hline.
    change (length (bytes_of CRLF)) with 2. split; lia.
Qed.

Lemma write_base64_length b :
  length (write_base64 b 0 []) = length b + 2 * (length b / 76).
Proof.
  rewrite write_base64_wrap76. unfold wrap76, full_lines, last_line.
  destruct (lines_cover (length b / 76) b eq_refl) as (Hcat & Hall & _).
  destruct (lines_length _ Hall) as [Hlen1 Hlen2].
  rewrite length_reshape, length_replicate in Hlen1, Hlen2.
  apply (f_equal length) in Hcat. rewrite length_app, Hlen1 in Hcat.
  rewrite length_app, Hlen2. lia.
Qed.

(** X17. The size of an attachment in base64: for [n] bytes of data the
    loop writes the [(n + 2) / 3 * 4] characters of the base64 text and
    two more bytes for each full line of 76. *)
Theorem base64_body_length :
  forall data,
    length (base64_Encode data) = (length data + 2) / 3 * 4
    /\ length (write_base64 (base64_Encode data) 0 []) =
       (length data + 2) / 3 * 4 + 2 * ((length data + 2) / 3 * 4 / 76).
Proof.
  intros data. rewrite write_base64_length, base64_Encode_EncodedLen.
  split; reflexivity.
Qed.

Lemma enc_encode_no_line_break v :
  (0 <= v < 64)%Z -> is_line_break (enc_encode v) = false.
Proof.
  intros Hv.
  assert (Hall : forallb (fun c => negb (is_line_break c)) (bytes_of encodeStd) = true)
    by (vm_compute; reflexivity).
  rewrite forallb_forall in Hall.
  apply negb_true_iff, Hall. unfold enc_encode. apply nth_In.
  change (length (bytes_of encodeStd)) with 64. lia.
Qed.

Lemma sextet_range x : (0 <= Z.land x 63 < 64)%Z.
Proof.
  change 63%Z with (Z.ones 6). rewrite Z.land_ones by lia.
  apply Z.mod_pos_bound. reflexivity.
Qed.

Lemma base64_Encode_no_line_break : forall n src,
  length src <= n ->
  Forall (fun c => is_line_break c = false) (base64_Encode src).
Proof.
  induction n as [|n IH]; intros src Hn.
  - destruct src; [constructor|simpl in Hn; lia].
  - destruct src as [|s0 [|s1 [|s2 rest]]]; cbn [base64_Encode].
    + constructor.
    + repeat constructor; apply enc_encode_no_line_break, sextet_range.
    + repeat constructor; apply enc_encode_no_line_break, sextet_range.
    + repeat (constructor; [apply enc_encode_no_line_break, sextet_range|]).
      apply IH. simpl in Hn. lia.
Qed.

Lemma without_line_breaks_app b1 b2 :
  without_line_breaks (b1 ++ b2) = without_line_breaks b1 ++ without_line_breaks b2.
Proof. apply List.filter_app. Qed.

Lemma without_line_breaks_write_base64 b :
  Forall (fun c => is_line_break c = false) b ->
  forall i, without_line_breaks (write_base64 b i []) = b.
Proof.
  induction 1 as [|x b Hx _ IH]; intros i; cbn [write_base64]; [reflexivity|].
  rewrite write_base64_buf, without_line_breaks_app, IH.
  unfold WriteByte, WriteString.
  destruct ((i + 1) mod 76 =? 0)%Z; cbn [app];
    rewrite ?without_line_breaks_app;
    unfold without_line_breaks; cbn [List.filter]; rewrite Hx; reflexivity.
Qed.

(** X18. The lines are the base64 text and nothing else: the base64 text
    has no carriage return or line feed of its own, and the bytes written
    for an attachment, without the line breaks, are its base64 text. *)
Theorem base64_lines_round_trip :
  forall data,
    Forall (fun c => is_line_break c = false) (base64_Encode data)
    /\ without_line_breaks (write_base64 (base64_Encode data) 0 []) =
       base64_Encode data.
Proof.
  intros data.
  assert (H : Forall (fun c => is_line_break c = false) (base64_Encode data))
    by (apply (base64_Encode_no_line_break (length data)); reflexivity).
  split; [exact H|]. apply without_line_breaks_write_base64. exact H.
Qed.

(* ===================================================================== *)
(** ** The name an attachment is filed under *)
(* ===================================================================== *)

Lemma list_ascii_of_string_app s t :
  list_ascii_of_string (s +:+ t) = list_ascii_of_string s ++ list_ascii_of_string t.
Proof.
  induction s as [|c s IH]; [reflexivity|].
  change (String c s +:+ t) with (String c (s +:+ t)). simpl. rewrite IH. reflexivity.
Qed.

Lemma String_app_assoc s t u : (s +:+ t) +:+ u = s +:+ t +:+ u.
Proof.
  induction s as [|c s IH]; [reflexivity|].
  change ((String c s +:+ t) +:+ u) with (String c ((s +:+ t) +:+ u)).
  rewrite IH. reflexivity.
Qed.

(** The loop of [filepath.Split] walks back over characters that are no
    separators. *)
Lemma split_index_skip p1 p2 :
  Forall (fun c => IsPathSeparator c = false) p2 ->
  forall k, k <= length p2 ->
  split_index (p1 ++ p2) (length p1 + k) = split_index (p1 ++ p2) (length p1).
Proof.
  intros Hp2. induction k as [|k IH]; intros Hk.
  - rewrite Nat.add_0_r. reflexivity.
  - rewrite Nat.add_succ_r. cbn [split_index].
    destruct (lookup_lt_is_Some_2 p2 k ltac:(lia)) as [c Hc].
    rewrite lookup_app_r by lia.
    replace (length p1 + k - length p1) with k by lia. rewrite Hc.
    rewrite Forall_forall in Hp2.
    rewrite (Hp2 c) by (eapply list_elem_of_lookup_2; exact Hc).
    apply IH. lia.
Qed.

Lemma filepath_Split_dir_name dir name :
  (forall c, c ∈ list_ascii_of_string name -> IsPathSeparator c = false) ->
  filepath_Split (dir +:+ "/" +:+ name) = (dir +:+ "/", name)
  /\ filepath_Split name = (EmptyString, name).
Proof.
  intros Hname.
  assert (Hall : Forall (fun c => IsPathSeparator c = false) (list_ascii_of_string name)).
  { apply Forall_forall. exact Hname. }
  pose proof (split_index_skip (list_ascii_of_string (dir +:+ "/"))
                (list_ascii_of_string name) Hall
                (length (list_ascii_of_string name)) (Nat.le_refl _)) as Hdir.
  pose proof (split_index_skip [] (list_ascii_of_string name) Hall
                (length (list_ascii_of_string name)) (Nat.le_refl _)) as Hnodir.
  split; unfold filepath_Split.
  - replace (dir +:+ "/" +:+ name) with ((dir +:+ "/") +:+ name)
      by apply String_app_assoc.
    rewrite list_ascii_of_string_app, length_app, Hdir.
    assert (Hcut : split_index
                     (list_ascii_of_string (dir +:+ "/") ++ list_ascii_of_string name)
                     (length (list_ascii_of_string (dir +:+ "/"))) =
                   length (list_ascii_of_string (dir +:+ "/"))).
    { rewrite list_ascii_of_string_app, length_app. cbn [list_ascii_of_string length].
      rewrite Nat.add_1_r. cbn [split_index].
      rewrite <- app_assoc, lookup_app_r by lia.
      rewrite Nat.sub_diag. reflexivity. }
    rewrite Hcut, take_app_length, drop_app_length.
    rewrite !string_of_list_ascii_of_string. reflexivity.
  - cbn [app length Nat.add] in Hnodir. rewrite Hnodir.
    cbn [split_index]. rewrite take_0, drop_0.
    rewrite string_of_list_ascii_of_string. reflexivity.
Qed.

(** X19. An attachment is filed under the name of the file without its
    directories: a successful [attach] of a path that ends in a separator
    and a name, or of a bare name, stores what it read under that name. *)
Theorem attach_files_under_base_name :
  forall ReadFile m dir name inline,
    (forall c, c ∈ list_ascii_of_string name -> IsPathSeparator c = false) ->
    (forall m',
       attach ReadFile m (dir +:+ "/" +:+ name) inline = Returns (m', None) ->
       exists data,
         ReadFile (dir +:+ "/" +:+ name) = inl data
         /\ entries m' !! name =
            Some {| Filename := name; Data := data; Inline := inline |})
    /\ (forall m',
          attach ReadFile m name inline = Returns (m', None) ->
          exists data,
            ReadFile name = inl data
            /\ entries m' !! name =
               Some {| Filename := name; Data := data; Inline := inline |}).
Proof.
  intros ReadFile m dir name inline Hname.
  destruct (filepath_Split_dir_name dir name Hname) as [Hdir Hbare].
  split; intros m' Hret;
    apply attach_Returns in Hret as (data & a & Hread & _ & ->);
    exists data; (split; [exact Hread|]);
    rewrite ?Hdir, ?Hbare; unfold entries;
    cbn [set_Attachments Attachments default snd]; apply lookup_insert_eq.
Qed.

Lemma attach_files_under_base_name_witness :
  (forall c, c ∈ list_ascii_of_string "notes.txt" -> IsPathSeparator c = false)
  /\ exists data,
       example_files ("a" +:+ "/" +:+ "notes.txt") = inl data
       /\ entries
            (set_Attachments (NewMessage "Hi" "Hello")
               (<["notes.txt" := {| Filename := "notes.txt";
                                    Data := bytes_of "first"; Inline := false |}]> ∅))
          !! "notes.txt" =
          Some {| Filename := "notes.txt"; Data := data; Inline := false |}.
Proof.
  assert (H : forall c, c ∈ list_ascii_of_string "notes.txt" ->
                        IsPathSeparator c = false).
  { intros c Hc. cbn [list_ascii_of_string] in Hc.
    repeat (apply elem_of_cons in Hc as [->|Hc]; [reflexivity|]). inversion Hc. }
  split; [exact H|].
  exact (proj1 (attach_files_under_base_name example_files (NewMessage "Hi" "Hello")
                  "a" "notes.txt" false H) _ eq_refl).
Defined.

(* ===================================================================== *)
(** ** Further properties of [Tolist] *)
(* ===================================================================== *)

(** X20. When no element of [m.Cc] and of [m.Bcc] lies in the spare
    capacity behind [m.To] (as when [m.To] is full, or the three slices
    are on arrays of their own), [Tolist] returns the elements of [m.To],
    then of [m.Cc], then of [m.Bcc], and the message reads after the call
    as it read before. *)
Theorem Tolist_apart :
  forall st m,
    apart (To m) (Cc m) ->
    apart (To m) (Bcc m) ->
    recipients st m = To (load st m) ++ Cc (load st m) ++ Bcc (load st m)
    /\ after_Tolist st m = load st m.
Proof.
  intros st m HCc HBcc. unfold recipients, after_Tolist, Tolist.
  cbn [load To Cc Bcc].
  pose proof (range_append_apart (Cc m) (len (Cc m)) 0 st (To m) HCc (Nat.le_refl _))
    as Helems1.
  pose proof (range_append_frame (Cc m) (len (Cc m)) 0 st (To m)) as Hframe1.
  pose proof (range_append_spare (Cc m) (len (Cc m)) 0 st (To m)) as Hspare1.
  destruct (range_append st (Cc m) 0 (len (Cc m)) (To m)) as [st1 t1].
  cbn [fst snd] in *.
  assert (HBcc1 : apart t1 (Bcc m)) by (eapply apart_mono; eassumption).
  pose proof (range_append_apart (Bcc m) (len (Bcc m)) 0 st1 t1 HBcc1 (Nat.le_refl _))
    as Helems2.
  pose proof (range_append_frame (Bcc m) (len (Bcc m)) 0 st1 t1) as Hframe2.
  destruct (range_append st1 (Bcc m) 0 (len (Bcc m)) t1) as [st2 t2].
  cbn [fst snd] in *.
  assert (Hframe : forall a j, ~ spare (To m) a j -> st2 a j = st a j).
  { intros a j Hspare. rewrite Hframe2 by (intros H; apply Hspare, Hspare1, H).
    apply Hframe1. exact Hspare. }
  split.
  - rewrite Helems2, Helems1, <- !elems_index, <- app_assoc.
    rewrite (apart_elems (To m) (Bcc m) st st1 HBcc Hframe1). reflexivity.
  - unfold load.
    rewrite (apart_elems (To m) (To m) st st2 (apart_self _) Hframe).
    rewrite (apart_elems (To m) (Cc m) st st2 HCc Hframe).
    rewrite (apart_elems (To m) (Bcc m) st st2 HBcc Hframe). reflexivity.
Qed.

Lemma Tolist_apart_witness :
  apart (To example_message_in_memory) (Cc example_message_in_memory)
  /\ apart (To example_message_in_memory) (Bcc example_message_in_memory)
  /\ recipients example_store example_message_in_memory =
     ["b@example.org"; "c@example.org"].
Proof.
  assert (HCc : apart (To example_message_in_memory) (Cc example_message_in_memory))
    by (cbn; intros i Hi; lia).
  assert (HBcc : apart (To example_message_in_memory) (Bcc example_message_in_memory))
    by (cbn; intros i Hi [_ H]; lia).
  split; [exact HCc|]. split; [exact HBcc|].
  exact (proj1 (Tolist_apart example_store example_message_in_memory HCc HBcc)).
Defined.

(** X21. Whatever the three slices share, [Tolist] returns the elements
    of [m.To] followed by as many elements as [m.Cc] and [m.Bcc] have,
    and changes no field of the message but the elements of [m.Cc] and
    [m.Bcc]. *)
Theorem Tolist_keeps_To_and_length :
  forall st m,
    (exists rest,
       recipients st m = To (load st m) ++ rest
       /\ length rest = length (Cc (load st m)) + length (Bcc (load st m)))
    /\ To (after_Tolist st m) = To (load st m)
    /\ length (Cc (after_Tolist st m)) = length (Cc (load st m))
    /\ length (Bcc (after_Tolist st m)) = length (Bcc (load st m))
    /\ (From (after_Tolist st m), ReplyTo (after_Tolist st m),
        Subject (after_Tolist st m), Body (after_Tolist st m),
        BodyContentType (after_Tolist st m), Attachments (after_Tolist st m)) =
       (From m, ReplyTo m, Subject m, Body m, BodyContentType m, Attachments m).
Proof.
  intros st m. unfold recipients, after_Tolist, Tolist.
  destruct (range_append_elems (Cc m) (len (Cc m)) 0 st (To m))
    as (read1 & Helems1 & Hlen1).
  pose proof (range_append_frame (Cc m) (len (Cc m)) 0 st (To m)) as Hframe1.
  pose proof (range_append_spare (Cc m) (len (Cc m)) 0 st (To m)) as Hspare1.
  destruct (range_append st (Cc m) 0 (len (Cc m)) (To m)) as [st1 t1].
  cbn [fst snd] in *.
  destruct (range_append_elems (Bcc m) (len (Bcc m)) 0 st1 t1)
    as (read2 & Helems2 & Hlen2).
  pose proof (range_append_frame (Bcc m) (len (Bcc m)) 0 st1 t1) as Hframe2.
  destruct (range_append st1 (Bcc m) 0 (len (Bcc m)) t1) as [st2 t2].
  cbn [fst snd] in *.
  assert (Hframe : forall a j, ~ spare (To m) a j -> st2 a j = st a j).
  { intros a j Hspare. rewrite Hframe2 by (intros H; apply Hspare, Hspare1, H).
    apply Hframe1. exact Hspare. }
  assert (HTo : elems st2 (To m) = elems st (To m))
    by (apply (apart_elems (To m)); [apply apart_self|exact Hframe]).
  cbn [load To Cc Bcc]. split; [|split; [exact HTo|]].
  - exists (read1 ++ read2). rewrite Helems2, Helems1, <- app_assoc.
    split; [reflexivity|]. rewrite length_app, !elems_length. lia.
  - rewrite !elems_length. repeat split.
Qed.
